(** * rrr_raf_tal.py: the river-network viewer, embedded and verified

    The script keeps its state in module-level variables and reacts to GUI
    callbacks.  The embedding below follows it function by function: Python
    integers are [Z], the connectivity dictionary is a [gmap Z (list Z)],
    lists are lists, a callback is a function from the module state to an
    outcome, a new state and the effects it emitted (prints, redraw requests,
    plotting calls).  The parsers, the float operations and the calls into
    numpy and statsmodels are reached through interfaces about which nothing
    is assumed, so every statement holds whatever these operations compute;
    the worked examples run on binary64 floats. *)

From Stdlib Require Import ZArith Lia Ascii.
From Stdlib Require PrimFloat Uint63.
From stdpp Require Import gmap strings list.

Open Scope string_scope.
Open Scope list_scope.
Open Scope Z_scope.

(** ** Exceptions and endings of a piece of code *)

Inductive exn : Type :=
| IndexError
| ValueError
| TypeError
| SystemExit (code : Z).

(** How a loop or a call ends: it returns, it raises, or the loop budget ran
    out (the Python loop would still be running). *)
Inductive ending : Type :=
| Returned
| Raised (e : exn)
| Diverged.

(** ** choose_downstream (lines 316-331) *)

Module Downstream.

(** [while rivid in connectivity: rivid = connectivity[rivid][0];
    downstream_rivers_list.append(rivid)].  [fuel] bounds the number of
    iterations; the list is mutated in place, so whatever was appended before
    an exception or before the budget ran out stays appended. *)
Fixpoint downstream_loop (fuel : nat) (connectivity : gmap Z (list Z))
    (rivid : Z) (downstream_rivers_list : list Z) : list Z * ending :=
  match connectivity !! rivid with
  | None => (downstream_rivers_list, Returned)
  | Some [] => (downstream_rivers_list, Raised IndexError)
  | Some (next :: _) =>
      match fuel with
      | O => (downstream_rivers_list, Diverged)
      | S fuel' =>
          downstream_loop fuel' connectivity next (downstream_rivers_list ++ [next])
      end
  end.

Definition choose_downstream (fuel : nat) (connectivity : gmap Z (list Z))
    (rivid : Z) (downstream_rivers_list : list Z) : list Z * ending :=
  downstream_loop fuel connectivity rivid (downstream_rivers_list ++ [rivid]).

(** The id reached from [r] after following first entries [n] times, when all
    of these first entries exist. *)
Fixpoint orbit (connectivity : gmap Z (list Z)) (n : nat) (r : Z) : option Z :=
  match n with
  | O => Some r
  | S n' =>
      match connectivity !! r with
      | Some (next :: _) => orbit connectivity n' next
      | _ => None
      end
  end.

(** Following first entries from [start] never comes back to an id. *)
Definition never_revisits (connectivity : gmap Z (list Z)) (start : Z) : Prop :=
  ∀ (i j : nat) (a : Z), (i < j)%nat →
    orbit connectivity i start = Some a → orbit connectivity j start ≠ Some a.

(** No id met on the way is a key with an empty connectivity list. *)
Definition first_entries_exist (connectivity : gmap Z (list Z)) (start : Z) : Prop :=
  ∀ (n : nat) (r : Z), orbit connectivity n start = Some r → connectivity !! r ≠ Some [].

(** The downstream path as the specification words it: the starting id, then
    the first entry of the current id's list again and again, up to and
    including the first id that is not a key. *)
Inductive downstream_path (connectivity : gmap Z (list Z)) : Z → list Z → Prop :=
| path_sink r :
    connectivity !! r = None → downstream_path connectivity r [r]
| path_step r next rest tl :
    connectivity !! r = Some (next :: rest) →
    downstream_path connectivity next tl →
    downstream_path connectivity r (r :: tl).

(** A checkable form of the precondition: the first [n] ids of the walk are
    pairwise distinct and the walk has ended within [n] steps. *)
Definition trail (connectivity : gmap Z (list Z)) (n : nat) (start : Z) : list (option Z) :=
  (λ i, orbit connectivity i start) <$> seq 0 n.

Definition walk_checked (connectivity : gmap Z (list Z)) (n : nat) (start : Z) : Prop :=
  orbit connectivity n start = None ∧ NoDup (trail connectivity n start).

End Downstream.


(** ** The numeric interfaces

    [float(...)], [int(...)] and the arithmetic and comparisons of Python
    floats, then the calls into numpy and statsmodels.  Nothing is assumed
    about them: [None] from a parser stands for its [ValueError]. *)

Class IntParser : Type := {
  py_int : string → option Z             (* int(text) *)
}.

Class PyFloat (F : Type) : Type := {
  py_float : string → option F;          (* float(text) *)
  f_of_int : Z → F;                      (* an int operand meeting a float *)
  f_add : F → F → F;
  f_mul : F → F → F;
  f_gt : F → F → bool;
  f_lt : F → F → bool;
  f_ge : F → F → bool;
  f_eq : F → F → bool                    (* == *)
}.

Class SciLib (F : Type) : Type := {
  isclose : F → F → bool;                (* np.isclose(a, b, rtol=1e-3) *)
  percentile : list F → F → F;           (* np.percentile(a, q) *)
  ccf : list F → list F → list F         (* sm.tsa.stattools.ccf(x, y, adjusted=True, fft=True) *)
}.

(** ** Command line (lines 119-121 and 153-163) *)

Module Cli.

Record paths : Type := {
  connectivity_f_path : string;
  sf_path : string;
  Qout_f_path : string
}.

Definition default_paths : paths :=
  {| connectivity_f_path := "../San_Gaud_data/rapid_connect_San_Guad.csv";
     sf_path := "../San_Gaud_data/NHDFlowline_San_Guad/NHDFlowline_San_Guad.shp";
     Qout_f_path := "../San_Gaud_data/Qout_San_Guad_exp00.nc" |}.

Inductive startup_event : Type :=
| LoadAsset (path : string)
| PrintLine (msg : string)
| OpenInput (path : string).

(** What the start of the module does with the files of the repository itself,
    before it looks at the arguments (lines 53-54, 79, 143). *)
Definition asset_loads : list startup_event :=
  [LoadAsset "./assets/fonts/Inter.ttf";
   LoadAsset "./assets/svgs/waypoint.svg";
   LoadAsset "./assets/gifs/RAFT.gif"].

(** [sys.argv[k]] *)
Definition argv_at (argv : list string) (k : nat) : exn + string :=
  match argv !! k with
  | Some a => inr a
  | None => inl IndexError
  end.

(** Lines 153-163.  [argv] is [sys.argv]: the script name, then the
    positional arguments. *)
Definition get_args (argv : list string) : (exn + paths) * list startup_event :=
  let IS_arg := Z.of_nat (length argv) in
  if 4 <? IS_arg then
    (inl (SystemExit 22), [PrintLine "Error: A maximum of 3 arguments can be used."])
  else if 1 <? IS_arg then
    match argv_at argv 2 with
    | inl e => (inl e, [])
    | inr a2 =>
        if 2 <? IS_arg then
          match argv_at argv 3 with
          | inl e => (inl e, [])
          | inr a3 =>
              if 3 <? IS_arg then
                match argv_at argv 4 with
                | inl e => (inl e, [])
                | inr a4 =>
                    (inr {| connectivity_f_path := a2; sf_path := a3; Qout_f_path := a4 |}, [])
                end
              else
                (inr {| connectivity_f_path := a2; sf_path := a3;
                        Qout_f_path := Qout_f_path default_paths |}, [])
          end
        else
          (inr {| connectivity_f_path := a2; sf_path := sf_path default_paths;
                  Qout_f_path := Qout_f_path default_paths |}, [])
    end
  else (inr default_paths, []).

(** The input files in the order the module opens them once the arguments are
    accepted (lines 192, 222, 225, 242). *)
Definition input_opens (p : paths) : list startup_event :=
  [OpenInput (Qout_f_path p); OpenInput (connectivity_f_path p);
   OpenInput (connectivity_f_path p); OpenInput (sf_path p)].

(** The module up to the point where its inputs are opened. *)
Definition startup (argv : list string) : (exn + paths) * list startup_event :=
  match get_args argv with
  | (inl e, out) => (inl e, asset_loads ++ out)
  | (inr p, out) => (inr p, asset_loads ++ out ++ input_opens p)
  end.

(** What the documented interface promises for one to three arguments
    (lines 146-149): argument k is the k-th path, the others keep their
    defaults. *)
Definition documented_paths (args : list string) : paths :=
  {| connectivity_f_path := default (connectivity_f_path default_paths) (args !! 0%nat);
     sf_path := default (sf_path default_paths) (args !! 1%nat);
     Qout_f_path := default (Qout_f_path default_paths) (args !! 2%nat) |}.

Definition is_input_open (e : startup_event) : bool :=
  match e with OpenInput _ => true | _ => false end.

End Cli.

(** ** Connectivity loader (lines 221-236) *)

Module Loader.

(** [s.replace(" ", "")] *)
Fixpoint remove_spaces (s : string) : string :=
  match s with
  | EmptyString => EmptyString
  | String c s' =>
      if Ascii.eqb c " "%char then remove_spaces s' else String c (remove_spaces s')
  end.

Section WithParser.
Context {ip : IntParser}.

(** [[int(d) for d in l]] *)
Fixpoint ints_of (l : list string) : exn + list Z :=
  match l with
  | [] => inr []
  | d :: l' =>
      match py_int d with
      | None => inl ValueError
      | Some z =>
          match ints_of l' with
          | inl e => inl e
          | inr zs => inr (z :: zs)
          end
      end
  end.

(** One iteration of the loop: [data] is built first, then [row[0]] is read. *)
Definition parse_row (row : list string) : exn + (Z * list Z) :=
  match ints_of (tail row) with
  | inl e => inl e
  | inr data =>
      match row with
      | [] => inl IndexError
      | first :: _ =>
          match py_int (remove_spaces first) with
          | None => inl ValueError
          | Some key => inr (key, data)
          end
      end
  end.

(** The loop over the rows that [csv.reader] yields. *)
Fixpoint load_rows (rows : list (list string)) (connectivity : gmap Z (list Z))
    : exn + gmap Z (list Z) :=
  match rows with
  | [] => inr connectivity
  | row :: rows' =>
      match parse_row row with
      | inl e => inl e
      | inr (key, data) => load_rows rows' (<[key := data]> connectivity)
      end
  end.

(** [connectivity = dict()] at line 128, filled at lines 225-236. *)
Definition load_connectivity (rows : list (list string)) : exn + gmap Z (list Z) :=
  load_rows rows ∅.

(** The rows as (key, data) pairs, when every row reads. *)
Fixpoint parsed_rows (rows : list (list string)) : option (list (Z * list Z)) :=
  match rows with
  | [] => Some []
  | row :: rows' =>
      match parse_row row, parsed_rows rows' with
      | inr kv, Some kvs => Some (kv :: kvs)
      | _, _ => None
      end
  end.

End WithParser.

(** The dictionary after the assignments [connectivity[key] = data], in order. *)
Definition assign_all (kvs : list (Z * list Z)) (m : gmap Z (list Z)) : gmap Z (list Z) :=
  foldl (λ acc kv, <[kv.1 := kv.2]> acc) m kvs.

(** A reader of plain ASCII decimal literals with an optional sign; it agrees
    with [int] on such texts and rejects everything else. *)
Definition digit_of (c : ascii) : option Z :=
  let n := Z.of_N (Ascii.N_of_ascii c) in
  if (48 <=? n) && (n <=? 57) then Some (n - 48) else None.

Fixpoint digits_of (s : string) (acc : Z) : option Z :=
  match s with
  | EmptyString => Some acc
  | String c s' =>
      match digit_of c with
      | Some d => digits_of s' (10 * acc + d)
      | None => None
      end
  end.

Definition dec_int (s : string) : option Z :=
  match s with
  | EmptyString => None
  | String "-" (String c s') => Z.opp <$> digits_of (String c s') 0
  | String "+" (String c s') => digits_of (String c s') 0
  | String c s' => digits_of (String c s') 0
  end.

Definition dec_parser : IntParser := {| py_int := dec_int |}.

End Loader.

(** The first argument of the print at lines 478-479: a line break and a tab
    sit between its two sentences. *)
Definition zero_distance_error : string :=
  String.append "Error: Cannot have a distance between reaches of 0."
    (String "010" (String "009" "Using default value of")).

(** ** The viewer: module state, callbacks, events *)

Module Viewer.

(** How a callback ends. *)
Inductive outcome (A : Type) : Type :=
| Ret (a : A)
| Raise (e : exn)
| Diverge.
Arguments Ret {A} a.
Arguments Raise {A} e.
Arguments Diverge {A}.

Section Program.
Context {F : Type} {ip : IntParser} {pf : PyFloat F} {lib : SciLib F}.

(** What the module loads at start-up and never assigns again. *)
Record env : Type := {
  connectivity : gmap Z (list Z);
  shapefile : list (Z * F);       (* COMID and LENGTHKM of each feature, in file order *)
  x_vals_array : list F;
  y_vals_array : list F;
  Qout_data_ids : list Z;
  Qout_data : list (list F)       (* Qout_data[t][s] *)
}.

Definition shp_comids (e : env) : list Z := (shapefile e).*1.
Definition river_lengths (e : env) : list F := (shapefile e).*2.

(** The module-level variables the callbacks assign, and pyplot's registry of
    open figures (number and label).  A figure handle is the number the
    figure got when it was created. *)
Record state : Type := {
  downstream_rivers_list : list Z;
  offsets : option (F * F);       (* list() is None *)
  num_reaches_str : string;
  num_reaches : Z;
  reach_dist_str : string;
  reach_dist : F;
  default_reach_dist : F;
  threshold_level : string;
  fig_config : nat;
  fig_prop : nat;
  fig_discharge : nat;
  fig_peak_dur : nat;
  figures : list (nat * string)
}.

Definition set_downstream_rivers_list (v : list Z) (st : state) : state :=
  {| downstream_rivers_list := v; offsets := offsets st;
     num_reaches_str := num_reaches_str st; num_reaches := num_reaches st;
     reach_dist_str := reach_dist_str st; reach_dist := reach_dist st;
     default_reach_dist := default_reach_dist st; threshold_level := threshold_level st;
     fig_config := fig_config st; fig_prop := fig_prop st;
     fig_discharge := fig_discharge st; fig_peak_dur := fig_peak_dur st;
     figures := figures st |}.

Definition set_offsets (v : option (F * F)) (st : state) : state :=
  {| downstream_rivers_list := downstream_rivers_list st; offsets := v;
     num_reaches_str := num_reaches_str st; num_reaches := num_reaches st;
     reach_dist_str := reach_dist_str st; reach_dist := reach_dist st;
     default_reach_dist := default_reach_dist st; threshold_level := threshold_level st;
     fig_config := fig_config st; fig_prop := fig_prop st;
     fig_discharge := fig_discharge st; fig_peak_dur := fig_peak_dur st;
     figures := figures st |}.

Definition set_num_reaches_str (v : string) (st : state) : state :=
  {| downstream_rivers_list := downstream_rivers_list st; offsets := offsets st;
     num_reaches_str := v; num_reaches := num_reaches st;
     reach_dist_str := reach_dist_str st; reach_dist := reach_dist st;
     default_reach_dist := default_reach_dist st; threshold_level := threshold_level st;
     fig_config := fig_config st; fig_prop := fig_prop st;
     fig_discharge := fig_discharge st; fig_peak_dur := fig_peak_dur st;
     figures := figures st |}.

Definition set_num_reaches (v : Z) (st : state) : state :=
  {| downstream_rivers_list := downstream_rivers_list st; offsets := offsets st;
     num_reaches_str := num_reaches_str st; num_reaches := v;
     reach_dist_str := reach_dist_str st; reach_dist := reach_dist st;
     default_reach_dist := default_reach_dist st; threshold_level := threshold_level st;
     fig_config := fig_config st; fig_prop := fig_prop st;
     fig_discharge := fig_discharge st; fig_peak_dur := fig_peak_dur st;
     figures := figures st |}.

Definition set_reach_dist_str (v : string) (st : state) : state :=
  {| downstream_rivers_list := downstream_rivers_list st; offsets := offsets st;
     num_reaches_str := num_reaches_str st; num_reaches := num_reaches st;
     reach_dist_str := v; reach_dist := reach_dist st;
     default_reach_dist := default_reach_dist st; threshold_level := threshold_level st;
     fig_config := fig_config st; fig_prop := fig_prop st;
     fig_discharge := fig_discharge st; fig_peak_dur := fig_peak_dur st;
     figures := figures st |}.

Definition set_reach_dist (v : F) (st : state) : state :=
  {| downstream_rivers_list := downstream_rivers_list st; offsets := offsets st;
     num_reaches_str := num_reaches_str st; num_reaches := num_reaches st;
     reach_dist_str := reach_dist_str st; reach_dist := v;
     default_reach_dist := default_reach_dist st; threshold_level := threshold_level st;
     fig_config := fig_config st; fig_prop := fig_prop st;
     fig_discharge := fig_discharge st; fig_peak_dur := fig_peak_dur st;
     figures := figures st |}.

(** The four figure handles and the registry change together when a figure
    is created or closed. *)
Definition set_windows (config prop discharge peak_dur : nat)
    (figs : list (nat * string)) (st : state) : state :=
  {| downstream_rivers_list := downstream_rivers_list st; offsets := offsets st;
     num_reaches_str := num_reaches_str st; num_reaches := num_reaches st;
     reach_dist_str := reach_dist_str st; reach_dist := reach_dist st;
     default_reach_dist := default_reach_dist st; threshold_level := threshold_level st;
     fig_config := config; fig_prop := prop;
     fig_discharge := discharge; fig_peak_dur := peak_dur;
     figures := figs |}.

Definition set_figures (figs : list (nat * string)) (st : state) : state :=
  set_windows (fig_config st) (fig_prop st) (fig_discharge st) (fig_peak_dur st) figs st.

(** plt.get_figlabels() *)
Definition get_figlabels (st : state) : list string := (figures st).*2.

(** The number pyplot gives the next figure. *)
Definition next_fignum (st : state) : nat := S (max_list (figures st).*1).

(** *** Effects *)

Inductive pyval : Type :=
| VStr (s : string)
| VInt (z : Z)
| VFloat (x : F)
| VSeconds.                       (* an elapsed time read from the clock *)

Inductive effect : Type :=
| Print (args : list pyval)
| DrawIdle (fig : nat)                                   (* fig.canvas.draw_idle() *)
| NewFigure (num : nat) (label : string)
| CloseFigure (num : nat)
| DrawNetwork                                            (* the whole network, as in reset *)
| DrawMap (downstream : list Z) (waypoints : list Z)
| Scatter (x : Z) (y : F)
| PlotLine (x0 x1 : Z) (y0 y1 : F) (label : Z)
| FillBetween (label : Z) (points : list (nat * F))
| PlotSeries (row : nat) (series : list F) (label : Z)
| FillAbove (row : nat) (level : F) (series : list F)
| SaveFig (path : string).

(** *** A callback: outcome, new state, effects *)

Definition M (A : Type) : Type := state → outcome A * state * list effect.

#[local] Instance M_ret : MRet M := λ A a st, (Ret a, st, []).
#[local] Instance M_bind : MBind M := λ A B f m st,
  match m st with
  | (Ret a, st1, out1) =>
      match f a st1 with
      | (r, st2, out2) => (r, st2, out1 ++ out2)
      end
  | (Raise e, st1, out1) => (Raise e, st1, out1)
  | (Diverge, st1, out1) => (Diverge, st1, out1)
  end.

Definition get : M state := λ st, (Ret st, st, []).
Definition modify (f : state → state) : M unit := λ st, (Ret tt, f st, []).
Definition emit (e : effect) : M unit := λ st, (Ret tt, st, [e]).
Definition raise {A} (e : exn) : M A := λ st, (Raise e, st, []).
Definition lift {A} (r : exn + A) : M A :=
  match r with inl e => raise e | inr a => mret a end.
Definition emit_all (es : list effect) : M unit := λ st, (Ret tt, st, es).

Definition final_state {A} (r : outcome A * state * list effect) : state := r.1.2.
Definition emitted {A} (r : outcome A * state * list effect) : list effect := r.2.
Definition result {A} (r : outcome A * state * list effect) : outcome A := r.1.1.

(** *** get_rivids_along_downstream (lines 289-313) *)

(** [l.index(x)]: the first position of [x]. *)
Fixpoint index_of (x : Z) (l : list Z) : option nat :=
  match l with
  | [] => None
  | y :: l' => if bool_decide (y = x) then Some O else S <$> index_of x l'
  end.

(** The [for] loop; [rivids], [dists] and [net_distance] are its variables. *)
Fixpoint rivids_loop (e : env) (num_rivids : Z) (dist : F) (todo : list Z)
    (rivids : list Z) (dists : list F) (net_distance : F) : exn + (list Z * list F) :=
  match todo with
  | [] => inr (rivids, dists)
  | rivid :: todo' =>
      if num_rivids <=? Z.of_nat (length rivids) then inr (rivids, dists)
      else if negb (bool_decide (rivid ∈ shp_comids e)) then inr (rivids, dists)
      else
        match index_of rivid (shp_comids e) with
        | None => inl ValueError
        | Some k =>
            match river_lengths e !! k with
            | None => inl IndexError
            | Some len =>
                let net_distance := f_add net_distance len in
                if f_gt net_distance (f_mul (f_of_int (Z.of_nat (length rivids))) dist)
                then rivids_loop e num_rivids dist todo'
                       (rivids ++ [rivid]) (dists ++ [net_distance]) net_distance
                else rivids_loop e num_rivids dist todo' rivids dists net_distance
            end
        end
  end.

Definition get_rivids_along_downstream (e : env) (downstream : list Z)
    (num_rivids : Z) (dist : F) : exn + (list Z * list F) :=
  rivids_loop e num_rivids dist downstream [] [] (f_of_int 0).

(** The running sum the loop keeps: lengths of the reaches of [walked], added
    in order to the initial [0]. *)
Definition length_of (e : env) (rivid : Z) : option F :=
  index_of rivid (shp_comids e) ≫= λ k, river_lengths e !! k.

Fixpoint cumulative (e : env) (walked : list Z) (acc : F) : option F :=
  match walked with
  | [] => Some acc
  | rivid :: rest =>
      match length_of e rivid with
      | Some len => cumulative e rest (f_add acc len)
      | None => None
      end
  end.

(** *** Small callbacks *)

(** update_idle (lines 730-737) *)
Definition update_idle : M unit :=
  st ← get; emit (DrawIdle (fig_config st)).

(** redraw_canvases (lines 718-727); [skip_rerender] is [False] throughout. *)
Definition redraw_canvases : M unit :=
  st ← get; emit (DrawIdle 1);; emit (DrawIdle (fig_config st)).

(** draw_map (lines 369-412) *)
Definition draw_map (e : env) : M unit :=
  st ← get;
  '(rivids, dists) ← lift (get_rivids_along_downstream e (downstream_rivers_list st)
                             (num_reaches st) (reach_dist st));
  emit (DrawMap (downstream_rivers_list st) rivids).

(** choose_downstream (lines 316-331) on the module state. *)
Definition choose_downstream (fuel : nat) (e : env) (rivid : Z) : M (list Z) := λ st,
  match Downstream.choose_downstream fuel (connectivity e) rivid
          (downstream_rivers_list st) with
  | (l, Returned) => (Ret l, set_downstream_rivers_list l st, [])
  | (l, Raised x) => (Raise x, set_downstream_rivers_list l st, [])
  | (l, Diverged) => (Diverge, set_downstream_rivers_list l st, [])
  end.

(** plt.figure / plt.subplots with a label: a new entry in the registry. *)
Definition new_figure (label : string) : M nat :=
  st ← get;
  let num := next_fignum st in
  modify (set_figures (figures st ++ [(num, label)]));;
  emit (NewFigure num label);;
  mret num.

(** create_config_window (lines 868-999): a new "Control Room" figure whose
    widgets are wired to the callbacks below. *)
Definition create_config_window : M unit :=
  num ← new_figure "Control Room";
  modify (λ st, set_windows num (fig_prop st) (fig_discharge st) (fig_peak_dur st)
                  (figures st) st).

(** *** on_pick (lines 334-366) *)

Definition any_nonzero (o : option (F * F)) : bool :=
  match o with
  | None => false
  | Some (a, b) => negb (f_eq a (f_of_int 0)) || negb (f_eq b (f_of_int 0))
  end.

Definition all_close (p : F * F) (o : option (F * F)) : bool :=
  match o with
  | None => true
  | Some q => isclose p.1 q.1 && isclose p.2 q.2
  end.

(** The scan for the picked point: [n] iterations are left, [i] counts them. *)
Fixpoint find_point (n : nat) (xs ys : list F) (ox oy : F) (i : nat) : exn + nat :=
  match n with
  | O => inr i
  | S n' =>
      match xs !! i with
      | None => inl IndexError
      | Some x =>
          if f_eq x ox then
            match ys !! i with
            | None => inl IndexError
            | Some y => if f_eq y oy then inr i else find_point n' xs ys ox oy (S i)
            end
          else find_point n' xs ys ox oy (S i)
      end
  end.

Definition on_pick (fuel : nat) (e : env) (offsets_temp : F * F) : M unit :=
  st ← get;
  if any_nonzero (offsets st) && all_close offsets_temp (offsets st) then mret tt
  else
    modify (set_offsets (Some offsets_temp));;
    i ← lift (find_point (length (x_vals_array e)) (x_vals_array e) (y_vals_array e)
                offsets_temp.1 offsets_temp.2 O);
    id ← lift (match Qout_data_ids e !! i with
               | Some id => inr id
               | None => inl IndexError
               end);
    emit (Print [VStr "Showing downstream for"; VInt id]);;
    choose_downstream fuel e id;;
    draw_map e;;
    emit (Print [VStr "Took"; VSeconds; VStr "seconds to select"]);;
    create_config_window;;
    redraw_canvases;;
    emit (Print [VStr "Took"; VSeconds; VStr "seconds to select and draw"]).

(** *** Text boxes (lines 415-490) *)

Definition set_threshold_level (text : string) : M unit :=
  st ← get;
  let threshold_level_temp := text in
  level ← lift (match py_float (threshold_level st) with
                | Some x => inr x
                | None => inl ValueError
                end);
  threshold_level_temp ←
    (if f_gt level (f_of_int 100) then
       emit (Print [VStr "Error: Cannot set threshold level above 100%."]);;
       mret "100"
     else if f_lt level (f_of_int 0) then
       emit (Print [VStr "Error: Cannot set threshold level to below 0%."]);;
       mret "0"
     else mret threshold_level_temp);
  if bool_decide (threshold_level st = threshold_level_temp) then update_idle
  else
    emit (Print [VStr (String.append "Setting the river threshold level to "
                         (String.append (threshold_level st) " percentile."))]);;
    update_idle.

Definition update_num_reaches (e : env) (text : string) : M unit :=
  modify (set_num_reaches_str text);;
  let num_reaches_temp := match py_int text with Some n => n | None => 0 end in
  st ← get;
  if num_reaches_temp <? 0 then
    modify (set_num_reaches 0);;
    emit (Print [VStr "Showing"; VInt 0; VStr "river reaches"]);;
    draw_map e;;
    redraw_canvases
  else if bool_decide (num_reaches st = num_reaches_temp) then update_idle
  else
    modify (set_num_reaches num_reaches_temp);;
    emit (Print [VStr "Showing"; VInt num_reaches_temp; VStr "river reaches"]);;
    draw_map e;;
    redraw_canvases.

Definition update_reach_dist (e : env) (text : string) : M unit :=
  modify (set_reach_dist_str text);;
  st ← get;
  let reach_dist_temp :=
    match py_float text with Some x => x | None => default_reach_dist st end in
  if f_eq reach_dist_temp (f_of_int 0) then
    emit (Print [VStr zero_distance_error; VFloat (default_reach_dist st); VStr "km."]);;
    modify (set_reach_dist (default_reach_dist st));;
    emit (Print [VStr "Maintaining a distance of"; VFloat (default_reach_dist st);
                 VStr "km"; VStr "between river reaches"]);;
    draw_map e;;
    redraw_canvases
  else if f_eq (reach_dist st) reach_dist_temp then update_idle
  else
    modify (set_reach_dist reach_dist_temp);;
    emit (Print [VStr "Maintaining a distance of"; VFloat reach_dist_temp;
                 VStr "km"; VStr "between river reaches"]);;
    draw_map e;;
    redraw_canvases.

(** *** The three plot windows (lines 493-700) *)

(** [[list(Qout_data_ids).index(rivid) for rivid in rivids]] *)
Fixpoint indices_of (e : env) (rivids : list Z) : exn + list nat :=
  match rivids with
  | [] => inr []
  | rivid :: rest =>
      match index_of rivid (Qout_data_ids e) with
      | None => inl ValueError
      | Some s =>
          match indices_of e rest with
          | inl x => inl x
          | inr ss => inr (s :: ss)
          end
      end
  end.

(** [Qout_data[:, s]] *)
Fixpoint column_of (rows : list (list F)) (s : nat) : exn + list F :=
  match rows with
  | [] => inr []
  | row :: rows' =>
      match row !! s with
      | None => inl IndexError
      | Some v =>
          match column_of rows' s with
          | inl x => inl x
          | inr col => inr (v :: col)
          end
      end
  end.

Definition column (e : env) (s : nat) : exn + list F := column_of (Qout_data e) s.

(** [max(corr)]: the first of the largest elements. *)
Fixpoint max_from (l : list F) (best : F) : F :=
  match l with
  | [] => best
  | x :: l' => max_from l' (if f_gt x best then x else best)
  end.

Definition py_max (l : list F) : exn + F :=
  match l with
  | [] => inl ValueError
  | x :: l' => inr (max_from l' x)
  end.

(** [list(corr).index(m)] *)
Fixpoint index_f (m : F) (l : list F) : option nat :=
  match l with
  | [] => None
  | x :: l' => if f_eq x m then Some O else S <$> index_f m l'
  end.

(** Lines 537-541: the index of the maximum of the cross-correlation between
    the series of column [first_s] and the series of column [s]. *)
Definition lag (e : env) (first_s s : nat) : exn + Z :=
  match column e first_s with
  | inl x => inl x
  | inr xs =>
      match column e s with
      | inl x => inl x
      | inr ys =>
          let corr := ccf xs ys in
          match py_max corr with
          | inl x => inl x
          | inr m =>
              match index_f m corr with
              | None => inl ValueError
              | Some k => inr (Z.of_nat k)
              end
          end
      end
  end.

(** The iterations with [i > 0] of the loop at lines 527-561; [first_s],
    [last_dist] and [prev_x] are its variables, set by the iteration with
    [i == 0]. *)
Fixpoint propagation_loop (e : env) (items : list (nat * Z * F))
    (first_s : nat) (last_dist : F) (prev_x : Z) : (exn + unit) * list effect :=
  match items with
  | [] => (inr tt, [])
  | (s, idx, d) :: rest =>
      match lag e first_s s with
      | inl x => (inl x, [])
      | inr last_x =>
          let points :=
            [Scatter (prev_x + last_x) (f_add last_dist d);
             PlotLine prev_x (prev_x + last_x) last_dist (f_add last_dist d) idx] in
          match propagation_loop e rest first_s (f_add last_dist d) (prev_x + last_x) with
          | (r, out) => (r, points ++ out)
          end
      end
  end.

(** The whole loop: the first item only sets the variables. *)
Definition propagation_plot (e : env) (ss : list nat) (rivids : list Z) (dists : list F)
    : (exn + unit) * list effect :=
  match zip (zip ss rivids) dists with
  | [] => (inr tt, [])
  | (s0, _, d0) :: rest => propagation_loop e rest s0 d0 0
  end.

Definition run_loop (r : (exn + unit) * list effect) : M unit :=
  emit_all r.2;; lift r.1.

Definition show_propagation (e : env) : M unit :=
  update_idle;;
  st ← get;
  let fig_name := "River Propagation Time" in
  if bool_decide (fig_name ∈ get_figlabels st) then mret tt
  else if bool_decide (downstream_rivers_list st = []) then mret tt
  else
    '(rivids, dists) ← lift (get_rivids_along_downstream e (downstream_rivers_list st)
                               (num_reaches st) (reach_dist st));
    emit (Print [VStr "Drawing the propagation timeseries:"]);;
    num ← new_figure fig_name;
    modify (λ st, set_windows (fig_config st) num (fig_discharge st) (fig_peak_dur st)
                    (figures st) st);;
    ss ← lift (indices_of e rivids);
    run_loop (propagation_plot e ss rivids dists);;
    emit (Print [VStr "Finished drawing the propagation timeseries"]);;
    emit (DrawIdle num).

Definition threshold_of (st : state) : exn + F :=
  match py_float (threshold_level st) with
  | Some q => inr q
  | None => inl ValueError
  end.

(** The points at or above the percentile, with their time index. *)
Definition peaks (series : list F) (y_percentile : F) : list (nat * F) :=
  filter (λ p, f_ge p.2 y_percentile = true) (zip (seq 0 (length series)) series).

Fixpoint event_duration_loop (e : env) (st : state) (items : list (nat * Z))
    : (exn + unit) * list effect :=
  match items with
  | [] => (inr tt, [])
  | (s, idx) :: rest =>
      match column e s with
      | inl x => (inl x, [])
      | inr series =>
          match threshold_of st with
          | inl x => (inl x, [])
          | inr q =>
              let y_percentile := percentile series q in
              match event_duration_loop e st rest with
              | (r, out) => (r, FillBetween idx (peaks series y_percentile) :: out)
              end
          end
      end
  end.

Definition show_event_duration (e : env) : M unit :=
  update_idle;;
  st ← get;
  let fig_name := "Peak Duration" in
  if bool_decide (fig_name ∈ get_figlabels st) then mret tt
  else
    '(rivids, dists) ← lift (get_rivids_along_downstream e (downstream_rivers_list st)
                               (num_reaches st) (reach_dist st));
    if bool_decide (downstream_rivers_list st = []) then mret tt
    else
      emit (Print [VStr "Drawing the event duration:"]);;
      num ← new_figure fig_name;
      modify (λ st, set_windows (fig_config st) (fig_prop st) (fig_discharge st) num
                      (figures st) st);;
      ss ← lift (indices_of e rivids);
      run_loop (event_duration_loop e st (zip ss rivids));;
      emit (Print [VStr "Finished drawing the river discharges"]);;
      emit (DrawIdle num).

(** [axs_discharge[i]] is an array of axes only when there are at least two
    rows: with one row pyplot hands back a single axes object, which cannot
    be indexed. *)
Fixpoint discharge_loop (e : env) (st : state) (nrows : nat) (items : list (nat * nat * Z))
    : (exn + unit) * list effect :=
  match items with
  | [] => (inr tt, [])
  | (s, i, idx) :: rest =>
      if bool_decide (nrows = 1%nat) then (inl TypeError, [])
      else
        match column e s with
        | inl x => (inl x, [])
        | inr series =>
            match threshold_of st with
            | inl x => (inl x, [PlotSeries i series idx])
            | inr q =>
                let y_percentile := percentile series q in
                match discharge_loop e st nrows rest with
                | (r, out) =>
                    (r, PlotSeries i series idx :: FillAbove i y_percentile series :: out)
                end
            end
        end
  end.

Definition show_discharge_over_time (e : env) : M unit :=
  st ← get;
  let discharge_title := "River Discharges Over Time" in
  if bool_decide (discharge_title ∈ get_figlabels st) then mret tt
  else if bool_decide (downstream_rivers_list st = []) then mret tt
  else
    '(rivids, dists) ← lift (get_rivids_along_downstream e (downstream_rivers_list st)
                               (num_reaches st) (reach_dist st));
    emit (Print [VStr "Drawing the river discharges:"]);;
    num ← new_figure discharge_title;
    (* subplots(nrows=0) raises once the figure exists *)
    (if bool_decide (length rivids = O) then raise ValueError else mret tt);;
    modify (λ st, set_windows (fig_config st) (fig_prop st) num (fig_peak_dur st)
                    (figures st) st);;
    ss ← lift (indices_of e rivids);
    run_loop (discharge_loop e st (length rivids)
                (zip (zip ss (seq 0 (length rivids))) rivids));;
    emit (Print [VStr "Finished drawing the river discharges"]);;
    emit (DrawIdle num).

(** *** Buttons of the map window (lines 785-865) *)

Definition close_all : M unit :=
  st ← get;
  emit (Print [VStr (String.append "Quitting RAFT." (String "010" "See you next time!"))]);;
  emit_all (CloseFigure <$> (figures st).*1);;
  modify (set_figures []).

Definition reset : M unit :=
  update_idle;;
  emit (Print [VStr "Resetting view"]);;
  emit DrawNetwork;;
  modify (set_downstream_rivers_list []);;
  modify (set_offsets None);;
  st ← get;
  emit_all (CloseFigure <$> filter (λ i, i ≠ 1%nat) (figures st).*1);;
  modify (set_figures (filter (λ f, f.1 = 1%nat) (figures st)));;
  emit (DrawIdle 1);;
  emit (Print [VStr "Finished resetting view"]);;
  emit (Print [VStr "Took"; VSeconds; VStr "seconds to reset"]).

Definition save_all : M unit :=
  st ← get;
  emit (Print [VStr "Saving all figures as svgs, pdf, and pngs"]);;
  emit_all (mjoin ((λ l, [SaveFig (String.append "./saved_outputs/svgs/" (String.append l ".svg"));
                          SaveFig (String.append "./saved_outputs/pdfs/" (String.append l ".pdf"));
                          SaveFig (String.append "./saved_outputs/pngs/" (String.append l ".png"))])
                   <$> get_figlabels st));;
  emit (Print [VStr "Finished saving all figures as svgs, pdf, and pngs"]).

(** *** get_total_distance (lines 703-715) *)

(** A Python number.  [sum] starts from the int 0; adding a float to an int
    converts the int first. *)
Inductive num : Type :=
| NInt (z : Z)
| NFloat (x : F).

Definition py_add (a b : num) : num :=
  match a, b with
  | NInt x, NInt y => NInt (x + y)
  | NInt x, NFloat y => NFloat (f_add (f_of_int x) y)
  | NFloat x, NInt y => NFloat (f_add x (f_of_int y))
  | NFloat x, NFloat y => NFloat (f_add x y)
  end.

(** [sum(l)] *)
Definition py_sum (l : list num) : num := foldl py_add (NInt 0) l.

Definition get_total_distance (e : env) (st : state) : num :=
  if bool_decide (downstream_rivers_list st = []) then NInt 0
  else py_sum ((λ p, if bool_decide (p.2 ∈ downstream_rivers_list st)
                     then NFloat p.1 else NInt 0)
               <$> zip (river_lengths e) (shp_comids e)).

(** *** Reading the effects of a run *)




(** A callback keeps a relation between the state it starts in and the state
    it leaves, however it ends. *)
Definition keeps {A} (R : state → state → Prop) (m : M A) : Prop :=
  ∀ st, R st (final_state (m st)).

(** The relations the callbacks are checked against. *)
Definition same_threshold (a b : state) : Prop :=
  threshold_level b = threshold_level a.

Definition list_grows (a b : state) : Prop :=
  downstream_rivers_list a `prefix_of` downstream_rivers_list b.

(** A property of the state that holds after a callback if it held before. *)
Definition invariant_kept (P : state → Prop) (a b : state) : Prop := P a → P b.

(** The distance between reaches and its default both differ from 0. *)
Definition distance_ok (st : state) : Prop :=
  f_eq (reach_dist st) (f_of_int 0) = false
  ∧ f_eq (default_reach_dist st) (f_of_int 0) = false.

(** *** The event loop *)

Inductive event : Type :=
| Pick (offsets_temp : F * F)
| SubmitThreshold (text : string)
| SubmitNumReaches (text : string)
| SubmitReachDist (text : string)
| ClickDischarge
| ClickPropagation
| ClickEventDuration
| ClickReset
| ClickSave
| ClickQuit.

Definition handle (fuel : nat) (e : env) (ev : event) : M unit :=
  match ev with
  | Pick offsets_temp => on_pick fuel e offsets_temp
  | SubmitThreshold text => set_threshold_level text
  | SubmitNumReaches text => update_num_reaches e text
  | SubmitReachDist text => update_reach_dist e text
  | ClickDischarge => show_discharge_over_time e
  | ClickPropagation => show_propagation e
  | ClickEventDuration => show_event_duration e
  | ClickReset => reset
  | ClickSave => save_all
  | ClickQuit => close_all
  end.

(** The module-level variables once the module has run (lines 123-143 and
    1003-1066): only the map figure is left open. *)
Definition initial_state : option state :=
  nr ← py_int "5";
  rd ← py_float "117";
  Some {| downstream_rivers_list := []; offsets := None;
          num_reaches_str := "5"; num_reaches := nr;
          reach_dist_str := "117"; reach_dist := rd; default_reach_dist := rd;
          threshold_level := "90";
          fig_config := 2; fig_prop := 2; fig_discharge := 3; fig_peak_dur := 4;
          figures := [(1%nat, "River Network")] |}.

(** The states the program can be in: each event is handled to its end,
    whether the callback returns or raises. *)
Inductive reachable (e : env) : state → Prop :=
| reach_init st : initial_state = Some st → reachable e st
| reach_step st fuel ev :
    reachable e st → reachable e (final_state (handle fuel e ev st)).

End Program.

End Viewer.

(** ** A concrete runtime: binary64 floats

    Python's [float] is IEEE binary64, which is what the primitive floats are.
    The two library calls that go through an FFT or an interpolation are given
    direct stand-ins; they serve the worked examples only. *)

Module Binary64.

Definition float_of_Z (z : Z) : PrimFloat.float :=
  match z with
  | Z0 => PrimFloat.of_uint63 (Uint63.of_Z 0)
  | Zpos _ => PrimFloat.of_uint63 (Uint63.of_Z z)
  | Zneg _ => PrimFloat.opp (PrimFloat.of_uint63 (Uint63.of_Z (- z)))
  end.

(** [float(text)] on the integer literals [Loader.dec_int] reads. *)
Definition float_of_text (s : string) : option PrimFloat.float :=
  float_of_Z <$> Loader.dec_int s.

#[export] Instance parser : IntParser := Loader.dec_parser.

#[export] Instance floats : PyFloat PrimFloat.float := {|
  py_float := float_of_text;
  f_of_int := float_of_Z;
  f_add := PrimFloat.add;
  f_mul := PrimFloat.mul;
  f_gt := λ a b, PrimFloat.ltb b a;
  f_lt := PrimFloat.ltb;
  f_ge := λ a b, PrimFloat.leb b a;
  f_eq := PrimFloat.eqb
|}.

(** |a - b| <= atol + rtol * |b| with atol = 1e-8 and rtol = 1e-3 *)
Definition isclose64 (a b : PrimFloat.float) : bool :=
  PrimFloat.leb (PrimFloat.abs (PrimFloat.sub a b))
    (PrimFloat.add (PrimFloat.div (float_of_Z 1) (float_of_Z 100000000))
       (PrimFloat.mul (PrimFloat.div (float_of_Z 1) (float_of_Z 1000)) (PrimFloat.abs b))).

(** Sum over t of x[t + k] * y[t], for each lag k. *)
Fixpoint dot (xs ys : list PrimFloat.float) : PrimFloat.float :=
  match xs, ys with
  | x :: xs', y :: ys' => PrimFloat.add (PrimFloat.mul x y) (dot xs' ys')
  | _, _ => float_of_Z 0
  end.

Definition lagged_products (xs ys : list PrimFloat.float) : list PrimFloat.float :=
  (λ k, dot (drop k xs) ys) <$> seq 0 (length xs).

(** The formula of statsmodels' ccf(x, y, adjusted=True), summed directly
    rather than through an FFT: the cross-covariance of the demeaned series at
    each lag k, divided by n - k, over the product of the two standard
    deviations.  On a constant series the standard deviation is 0 and every
    value is 0/0. *)
Definition fsum (l : list PrimFloat.float) : PrimFloat.float :=
  foldl PrimFloat.add (float_of_Z 0) l.

Definition mean (l : list PrimFloat.float) : PrimFloat.float :=
  PrimFloat.div (fsum l) (float_of_Z (Z.of_nat (length l))).

Definition demean (l : list PrimFloat.float) : list PrimFloat.float :=
  (λ x, PrimFloat.sub x (mean l)) <$> l.

Definition std (l : list PrimFloat.float) : PrimFloat.float :=
  PrimFloat.sqrt (mean ((λ x, PrimFloat.mul x x) <$> demean l)).

Definition ccf64 (xs ys : list PrimFloat.float) : list PrimFloat.float :=
  let n := length xs in
  let scale := PrimFloat.mul (std xs) (std ys) in
  (λ kc, PrimFloat.div
           (PrimFloat.div kc.2 (float_of_Z (Z.of_nat (n - kc.1)))) scale)
  <$> zip (seq 0 n) (lagged_products (demean xs) (demean ys)).

(** The largest element, standing in for a percentile. *)
Definition largest (l : list PrimFloat.float) (q : PrimFloat.float) : PrimFloat.float :=
  foldr (λ x best, if PrimFloat.ltb best x then x else best) (float_of_Z 0) l.

#[export] Instance lib : SciLib PrimFloat.float := {|
  isclose := isclose64;
  percentile := largest;
  ccf := ccf64
|}.

(** A small network: reach 1 flows to 2, 2 to 3, 3 to the outlet 0;
    reach 7 flows to 3 as well. *)
Definition small_connectivity : gmap Z (list Z) :=
  <[1 := [2; 0]]> (<[2 := [3; 1]]> (<[3 := [0; 2; 7]]> (<[7 := [3; 0]]> ∅))).

Definition small_env : Viewer.env := {|
  Viewer.connectivity := small_connectivity;
  Viewer.shapefile := [(1, float_of_Z 10); (2, float_of_Z 20); (3, float_of_Z 30);
                       (7, float_of_Z 5)];
  Viewer.x_vals_array := [float_of_Z 1; float_of_Z 2; float_of_Z 3; float_of_Z 4];
  Viewer.y_vals_array := [float_of_Z 5; float_of_Z 6; float_of_Z 7; float_of_Z 8];
  Viewer.Qout_data_ids := [1; 2; 3; 7];
  Viewer.Qout_data :=
    [[float_of_Z 0; float_of_Z 0; float_of_Z 9; float_of_Z 2];
     [float_of_Z 0; float_of_Z 9; float_of_Z 1; float_of_Z 2];
     [float_of_Z 1; float_of_Z 1; float_of_Z 0; float_of_Z 2];
     [float_of_Z 9; float_of_Z 0; float_of_Z 0; float_of_Z 2]]
|}.

(** The module state right after start-up, in this runtime. *)
Definition start_state : Viewer.state := {|
  Viewer.downstream_rivers_list := []; Viewer.offsets := None;
  Viewer.num_reaches_str := "5"; Viewer.num_reaches := 5;
  Viewer.reach_dist_str := "117"; Viewer.reach_dist := float_of_Z 117;
  Viewer.default_reach_dist := float_of_Z 117;
  Viewer.threshold_level := "90";
  Viewer.fig_config := 2; Viewer.fig_prop := 2;
  Viewer.fig_discharge := 3; Viewer.fig_peak_dur := 4;
  Viewer.figures := [(1%nat, "River Network")]
|}.

(** The state after picking the point of reach 1 and then submitting "15" as
    the distance between reaches. *)
Definition picked_state : Viewer.state :=
  Viewer.final_state
    (Viewer.handle 10 small_env (Viewer.SubmitReachDist "15")
       (Viewer.final_state
          (Viewer.handle 10 small_env (Viewer.Pick (float_of_Z 1, float_of_Z 5))
             start_state))).


End Binary64.

Module DownstreamFacts.
Import Downstream.

Section Walk.
Variable connectivity : gmap Z (list Z).

Lemma orbit_S_key n r next rest :
  connectivity !! r = Some (next :: rest) →
  orbit connectivity (S n) r = orbit connectivity n next.
Proof. intros H. simpl. by rewrite H. Qed.

Lemma never_revisits_next r next rest :
  connectivity !! r = Some (next :: rest) →
  never_revisits connectivity r → never_revisits connectivity next.
Proof.
  intros Hk Hnr i j a Hij Hi Hj.
  apply (Hnr (S i) (S j) a); [lia | |]; by rewrite (orbit_S_key _ _ _ _ Hk).
Qed.

Lemma first_entries_exist_next r next rest :
  connectivity !! r = Some (next :: rest) →
  first_entries_exist connectivity r → first_entries_exist connectivity next.
Proof.
  intros Hk Hne n x Hx. apply (Hne (S n)). by rewrite (orbit_S_key _ _ _ _ Hk).
Qed.

(** The loop only ever appends. *)
Lemma downstream_loop_extends fuel : ∀ r drl,
  ∃ more, (downstream_loop fuel connectivity r drl).1 = drl ++ more.
Proof.
  induction fuel as [|fuel IH]; intros r drl; simpl.
  - destruct (connectivity !! r) as [[|next rest]|]; exists []; simpl; by rewrite app_nil_r.
  - destruct (connectivity !! r) as [[|next rest]|]; try (exists []; simpl; by rewrite app_nil_r).
    destruct (IH next (drl ++ [next])) as [more Hm].
    exists (next :: more). rewrite Hm. by rewrite <- app_assoc.
Qed.

(** Termination by counting: [V] holds the keys already left behind. *)
Lemma downstream_loop_returns fuel : ∀ r drl (V : gset Z),
  V ⊆ dom connectivity →
  (∀ n x, orbit connectivity n r = Some x → x ∉ V) →
  never_revisits connectivity r →
  first_entries_exist connectivity r →
  (size (dom connectivity) ≤ fuel + size V)%nat →
  ∃ path, downstream_loop fuel connectivity r drl = (drl ++ path, Returned)
          ∧ downstream_path connectivity r (r :: path).
Proof.
  induction fuel as [|fuel IH]; intros r drl V HV Hfresh Hnr Hne Hsz.
  - simpl. destruct (connectivity !! r) as [[|next rest]|] eqn:Hk.
    + exfalso. by apply (Hne O r).
    + exfalso.
      assert (r ∉ V) as HrV by (by apply (Hfresh O)).
      assert (r ∈ dom connectivity) as Hrd by (apply elem_of_dom; eauto).
      assert (size ({[r]} ∪ V) ≤ size (dom connectivity))%nat as Hle
        by (apply subseteq_size; set_solver).
      rewrite size_union in Hle by set_solver.
      rewrite size_singleton in Hle. lia.
    + exists []. rewrite app_nil_r. split; [done | by constructor].
  - simpl. destruct (connectivity !! r) as [[|next rest]|] eqn:Hk.
    + exfalso. by apply (Hne O r).
    + assert (r ∉ V) as HrV by (by apply (Hfresh O)).
      assert (r ∈ dom connectivity) as Hrd by (apply elem_of_dom; eauto).
      destruct (IH next (drl ++ [next]) ({[r]} ∪ V)) as (path & Hrun & Hpath).
      * set_solver.
      * intros n x Hx. apply not_elem_of_union. split.
        -- apply not_elem_of_singleton. intros ->.
           apply (Hnr O (S n) r); [lia | done |].
           by rewrite (orbit_S_key _ _ _ _ Hk).
        -- apply (Hfresh (S n)). by rewrite (orbit_S_key _ _ _ _ Hk).
      * by eapply never_revisits_next.
      * by eapply first_entries_exist_next.
      * rewrite size_union by set_solver. rewrite size_singleton. lia.
      * exists (next :: path). rewrite Hrun, <- app_assoc. split; [done |].
        by econstructor.
    + exists []. rewrite app_nil_r. split; [done | by constructor].
Qed.

Lemma orbit_None_later n : ∀ r k,
  orbit connectivity n r = None → orbit connectivity (n + k) r = None.
Proof.
  induction n as [|n IH]; intros r k; simpl; [done |].
  destruct (connectivity !! r) as [[|next rest]|]; auto.
Qed.

Lemma walk_checked_never_revisits n start :
  walk_checked connectivity n start → never_revisits connectivity start.
Proof.
  intros [Hend Hnd] i j a Hij Hi Hj.
  destruct (decide (j < n)%nat) as [Hjn|Hjn].
  - assert (trail connectivity n start !! i = Some (Some a)) as Ti.
    { unfold trail. rewrite list_lookup_fmap, lookup_seq_lt by lia. simpl. by rewrite Hi. }
    assert (trail connectivity n start !! j = Some (Some a)) as Tj.
    { unfold trail. rewrite list_lookup_fmap, lookup_seq_lt by lia. simpl. by rewrite Hj. }
    pose proof (NoDup_lookup _ _ _ _ Hnd Ti Tj). lia.
  - replace j with (n + (j - n))%nat in Hj by lia.
    by rewrite orbit_None_later in Hj.
Qed.

End Walk.

(** C1 (as amended): under the precondition that following first entries from
    the start never revisits an id, and that no key met on the way has an
    empty list, choose_downstream returns as soon as the loop budget covers
    the number of keys, and what it has appended is the downstream path: the
    starting id, then first entries up to and including the first id that is
    not a key. *)
Theorem choose_downstream_terminates
    (connectivity : gmap Z (list Z)) (start : Z) (drl : list Z) (fuel : nat) :
  never_revisits connectivity start →
  first_entries_exist connectivity start →
  (size connectivity ≤ fuel)%nat →
  ∃ path, choose_downstream fuel connectivity start drl = (drl ++ path, Returned)
          ∧ downstream_path connectivity start path.
Proof.
  intros Hnr Hne Hfuel. unfold choose_downstream.
  destruct (downstream_loop_returns connectivity fuel start (drl ++ [start]) ∅)
    as (path & Hrun & Hpath); try done.
  - rewrite size_dom, size_empty. lia.
  - exists (start :: path). rewrite Hrun, <- app_assoc. done.
Qed.

Lemma choose_downstream_terminates_witness :
  ∃ path, choose_downstream 4 Binary64.small_connectivity 1 [9] = ([9] ++ path, Returned)
          ∧ downstream_path Binary64.small_connectivity 1 path.
Proof.
  apply choose_downstream_terminates.
  - apply (walk_checked_never_revisits _ 4). split; [by vm_compute |].
    apply (bool_decide_unpack _). by vm_compute.
  - intros n r Hn.
    destruct n as [|[|[|[|n]]]]; vm_compute in Hn; try discriminate;
      injection Hn as <-; by vm_compute.
  - by vm_compute.
Defined.

(** C1, where the stated claim fails: a file whose only row is the single
    column 1 loads as a key with an empty list; the precondition holds, and
    the call raises IndexError instead of returning. *)
Lemma choose_downstream_empty_list_raises :
  Loader.load_connectivity (ip := Loader.dec_parser) [["1"]] = inr {[1 := []]}
  ∧ never_revisits {[1 := []]} 1
  ∧ ∀ fuel drl, choose_downstream fuel {[1 := []]} 1 drl = (drl ++ [1], Raised IndexError).
Proof.
  split_and!.
  - reflexivity.
  - apply (walk_checked_never_revisits _ 1). split; [by vm_compute |].
    apply (bool_decide_unpack _). by vm_compute.
  - intros fuel drl. unfold choose_downstream. by destruct fuel.
Qed.

(** What the call appends does not depend on what the list held before. *)
Lemma downstream_loop_shift connectivity fuel : ∀ r pre l,
  downstream_loop fuel connectivity r (pre ++ l)
  = (pre ++ (downstream_loop fuel connectivity r l).1,
     (downstream_loop fuel connectivity r l).2).
Proof.
  induction fuel as [|fuel IH]; intros r pre l; simpl.
  - by destruct (connectivity !! r) as [[|next rest]|].
  - destruct (connectivity !! r) as [[|next rest]|]; try done.
    by rewrite <- app_assoc, IH.
Qed.

Lemma choose_downstream_prefix connectivity fuel rivid drl :
  drl `prefix_of` (choose_downstream fuel connectivity rivid drl).1.
Proof.
  unfold choose_downstream.
  destruct (downstream_loop_extends connectivity fuel rivid (drl ++ [rivid])) as [more ->].
  rewrite <- app_assoc. by apply prefix_app_r.
Qed.

Lemma choose_downstream_accumulates connectivity fuel rivid drl :
  choose_downstream fuel connectivity rivid drl
  = (drl ++ (choose_downstream fuel connectivity rivid []).1,
     (choose_downstream fuel connectivity rivid []).2).
Proof. unfold choose_downstream. simpl. apply downstream_loop_shift. Qed.

End DownstreamFacts.

Module CliFacts.
Import Cli.

(** C3: with one, two or three positional arguments the argument handling
    raises IndexError; no path is taken from the command line. *)
Theorem one_to_three_arguments_raise (script : string) (args : list string) :
  (1 ≤ length args ≤ 3)%nat →
  get_args (script :: args) = (inl IndexError, []).
Proof.
  intros Hlen.
  destruct args as [|a1 [|a2 [|a3 [|a4 args]]]]; simpl in Hlen; try lia; reflexivity.
Qed.

Lemma one_to_three_arguments_raise_witness :
  get_args ["rrr_raf_tal.py"; "connect.csv"] = (inl IndexError, [])
  ∧ documented_paths ["connect.csv"]
    = {| connectivity_f_path := "connect.csv";
         sf_path := sf_path default_paths;
         Qout_f_path := Qout_f_path default_paths |}.
Proof.
  split; [| reflexivity].
  apply (one_to_three_arguments_raise "rrr_raf_tal.py" ["connect.csv"]). simpl. lia.
Defined.

(** C4: with more than three positional arguments the program prints
    "Error: A maximum of 3 arguments can be used." and exits with code 22, and
    no input file has been opened by then. *)
Theorem more_than_three_arguments_exit (script : string) (args : list string) :
  (3 < length args)%nat →
  startup (script :: args)
  = (inl (SystemExit 22),
     asset_loads ++ [PrintLine "Error: A maximum of 3 arguments can be used."])
  ∧ Forall (λ ev, is_input_open ev = false) (startup (script :: args)).2.
Proof.
  intros Hlen.
  assert (startup (script :: args)
          = (inl (SystemExit 22),
             asset_loads ++ [PrintLine "Error: A maximum of 3 arguments can be used."]))
    as Hrun.
  { unfold startup, get_args.
    replace (4 <? Z.of_nat (length (script :: args))) with true; [done |].
    symmetry. apply Z.ltb_lt. simpl length. lia. }
  split; [done |]. rewrite Hrun. simpl. by repeat constructor.
Qed.

Lemma more_than_three_arguments_exit_witness :
  startup ["rrr_raf_tal.py"; "a.csv"; "b.shp"; "c.nc"; "d"]
  = (inl (SystemExit 22),
     asset_loads ++ [PrintLine "Error: A maximum of 3 arguments can be used."])
  ∧ Forall (λ ev, is_input_open ev = false)
      (startup ["rrr_raf_tal.py"; "a.csv"; "b.shp"; "c.nc"; "d"]).2.
Proof.
  apply (more_than_three_arguments_exit "rrr_raf_tal.py" ["a.csv"; "b.shp"; "c.nc"; "d"]).
  simpl. lia.
Defined.

End CliFacts.

Module LoaderFacts.
Import Loader.

Lemma assign_all_untouched kvs : ∀ m k,
  k ∉ kvs.*1 → assign_all kvs m !! k = m !! k.
Proof.
  induction kvs as [|[k' v'] kvs IH]; intros m k Hk; simpl; [done |].
  rewrite fmap_cons, not_elem_of_cons in Hk. destruct Hk as [Hne Hk].
  unfold assign_all in *. simpl. rewrite IH by done. by rewrite lookup_insert_ne.
Qed.

Lemma assign_all_last kvs : ∀ m i k v,
  kvs !! i = Some (k, v) →
  (∀ j v', (i < j)%nat → kvs !! j ≠ Some (k, v')) →
  assign_all kvs m !! k = Some v.
Proof.
  induction kvs as [|[k0 v0] kvs IH]; intros m i k v Hi Hlast; [done |].
  destruct i as [|i]; simpl in Hi.
  - injection Hi as -> ->. unfold assign_all. simpl.
    fold (assign_all kvs (<[k := v]> m)).
    rewrite assign_all_untouched; [by rewrite lookup_insert_eq |].
    intros Hin. apply list_elem_of_fmap in Hin as ([k' v'] & Hk & Hin). simpl in Hk. subst k'.
    apply list_elem_of_lookup in Hin as [j Hj].
    apply (Hlast (S j) v'); [lia | done].
  - unfold assign_all. simpl. apply (IH _ i); [done |].
    intros j v' Hij. apply (Hlast (S j) v'). lia.
Qed.

Lemma assign_all_dom kvs : ∀ m,
  dom (assign_all kvs m) = dom m ∪ list_to_set kvs.*1.
Proof.
  induction kvs as [|[k v] kvs IH]; intros m; unfold assign_all in *; simpl.
  - set_solver.
  - rewrite IH, dom_insert_L. set_solver.
Qed.

Section WithParser.
Context {ip : IntParser}.

Lemma ints_of_inv l : ∀ data,
  ints_of l = inr data → Forall2 (λ d z, py_int d = Some z) l data.
Proof.
  induction l as [|d l IH]; intros data Hd; simpl in Hd.
  - injection Hd as <-. constructor.
  - destruct (py_int d) as [z|] eqn:Hz; [| done].
    destruct (ints_of l) as [e|zs]; [done |].
    injection Hd as <-. constructor; auto.
Qed.

(** What a row that reads is read as. *)
Lemma parse_row_inv row k data :
  parse_row row = inr (k, data) →
  ∃ first rest, row = first :: rest
    ∧ py_int (remove_spaces first) = Some k
    ∧ Forall2 (λ d z, py_int d = Some z) rest data.
Proof.
  unfold parse_row. intros Hrow.
  destruct (ints_of (tail row)) as [e|data'] eqn:Hdata; [done |].
  destruct row as [|first rest]; [done |].
  destruct (py_int (remove_spaces first)) as [key|] eqn:Hkey; [| done].
  injection Hrow as -> ->. exists first, rest. split_and!; [done | done |].
  by apply ints_of_inv.
Qed.

Lemma load_rows_assigns rows : ∀ kvs m,
  parsed_rows rows = Some kvs → load_rows rows m = inr (assign_all kvs m).
Proof.
  induction rows as [|row rows IH]; intros kvs m Hp; simpl in *.
  - by injection Hp as <-.
  - destruct (parse_row row) as [e|[k v]]; [done |].
    destruct (parsed_rows rows) as [kvs'|]; [| done].
    injection Hp as <-. by rewrite (IH kvs').
Qed.

Lemma parsed_rows_inv rows : ∀ kvs,
  parsed_rows rows = Some kvs →
  Forall2 (λ row kv, parse_row row = inr kv) rows kvs.
Proof.
  induction rows as [|row rows IH]; intros kvs Hp; simpl in Hp.
  - injection Hp as <-. constructor.
  - destruct (parse_row row) as [e|kv] eqn:Hrow; [done |].
    destruct (parsed_rows rows) as [kvs'|]; [| done].
    injection Hp as <-. constructor; auto.
Qed.

(** C6 (as amended): when every row reads, loading returns a mapping with
    one entry per distinct first-column id.  Row by row, the key is the
    integer value of the first column with its spaces removed and the data
    are the integer values of the remaining columns in order; the mapping
    holds, for each id, the data of the last row with that id, and its size
    is the number of distinct first-column ids. *)
Theorem load_connectivity_spec (rows : list (list string)) (kvs : list (Z * list Z)) :
  parsed_rows rows = Some kvs →
  ∃ m, load_connectivity rows = inr m
    ∧ Forall2 (λ row kv, ∃ first rest, row = first :: rest
                 ∧ py_int (remove_spaces first) = Some kv.1
                 ∧ Forall2 (λ d z, py_int d = Some z) rest kv.2) rows kvs
    ∧ (∀ i k v, kvs !! i = Some (k, v) →
         (∀ j v', (i < j)%nat → kvs !! j ≠ Some (k, v')) → m !! k = Some v)
    ∧ (∀ k, is_Some (m !! k) ↔ k ∈ kvs.*1)
    ∧ size m = length (remove_dups kvs.*1).
Proof.
  intros Hp. exists (assign_all kvs ∅). split_and!.
  - unfold load_connectivity. by apply load_rows_assigns.
  - eapply Forall2_impl; [by apply parsed_rows_inv |].
    intros row [k v] Hrow. by apply parse_row_inv.
  - intros i k v. apply assign_all_last.
  - intros k. rewrite <- elem_of_dom, assign_all_dom. set_solver.
  - rewrite <- size_dom, assign_all_dom, dom_empty_L, (left_id_L ∅ (∪)).
    rewrite <- (size_list_to_set (C := gset Z) (remove_dups kvs.*1))
      by apply NoDup_remove_dups.
    f_equal. apply set_eq. intros k. rewrite !elem_of_list_to_set.
    by rewrite elem_of_remove_dups.
Qed.

End WithParser.

Lemma load_connectivity_spec_witness :
  ∃ m, load_connectivity (ip := dec_parser) [["1"; "2"; "0"]; [" 2"; "3"]; ["1"; "7"]] = inr m
    ∧ Forall2 (λ row kv, ∃ first rest, row = first :: rest
                 ∧ dec_int (remove_spaces first) = Some kv.1
                 ∧ Forall2 (λ d z, dec_int d = Some z) rest kv.2)
        [["1"; "2"; "0"]; [" 2"; "3"]; ["1"; "7"]] [(1, [2; 0]); (2, [3]); (1, [7])]
    ∧ (∀ i k v, [(1, [2; 0]); (2, [3]); (1, [7])] !! i = Some (k, v) →
         (∀ j v', (i < j)%nat → [(1, [2; 0]); (2, [3]); (1, [7])] !! j ≠ Some (k, v')) →
         m !! k = Some v)
    ∧ (∀ k, is_Some (m !! k) ↔ k ∈ [(1, [2; 0]); (2, [3]); (1, [7])].*1)
    ∧ size m = length (remove_dups [(1, [2; 0]); (2, [3]); (1, [7])].*1).
Proof.
  apply (load_connectivity_spec (ip := dec_parser)). reflexivity.
Defined.

(** C6, where the stated claim fails: two rows with the same id leave one
    entry, and it holds the second row's data, not the first row's. *)
Lemma repeated_id_keeps_last_row :
  ∃ m, load_connectivity (ip := dec_parser) [["1"; "2"]; ["1"; "3"]] = inr m
    ∧ parse_row (ip := dec_parser) ["1"; "2"] = inr (1, [2])
    ∧ m !! 1 = Some [3]
    ∧ size m = 1%nat
    ∧ length [["1"; "2"]; ["1"; "3"]] = 2%nat.
Proof. eexists. split_and!; [reflexivity | reflexivity | | |]; by vm_compute. Qed.

End LoaderFacts.

Module ViewerFacts.
Import Viewer.

Section Rivids.
Context {F : Type} {pf : PyFloat F}.
Variable e : env (F := F).

Lemma index_of_elem x (l : list Z) :
  x ∈ l → ∃ k, index_of x l = Some k ∧ (k < length l)%nat.
Proof.
  induction l as [|y l IH]; intros Hin; [by apply elem_of_nil in Hin |].
  simpl. case_bool_decide as Hy.
  - exists O. split; [done | simpl; lia].
  - apply elem_of_cons in Hin as [-> | Hin]; [done |].
    destruct (IH Hin) as (k & -> & Hk). exists (S k). split; [done | simpl; lia].
Qed.

(** Every id of the shapefile has a length: the two lists come from the same
    features. *)
Lemma length_of_listed rivid :
  rivid ∈ shp_comids e →
  ∃ k len, index_of rivid (shp_comids e) = Some k ∧ river_lengths e !! k = Some len.
Proof.
  intros Hin. destruct (index_of_elem _ _ Hin) as (k & Hk & Hlt).
  unfold shp_comids, river_lengths in *. rewrite length_fmap in Hlt.
  destruct (lookup_lt_is_Some_2 (shapefile e) k Hlt) as [[c len] Hc].
  exists k, len. split; [done |]. by rewrite list_lookup_fmap, Hc.
Qed.

Lemma cumulative_snoc walked : ∀ acc net rivid len,
  cumulative e walked acc = Some net →
  length_of e rivid = Some len →
  cumulative e (walked ++ [rivid]) acc = Some (f_add net len).
Proof.
  induction walked as [|r walked IH]; intros acc net rivid len Hnet Hlen; simpl in *.
  - injection Hnet as <-. by rewrite Hlen.
  - destruct (length_of e r) as [l|]; [| done]. by apply IH.
Qed.

(** What holds of the i-th distance returned: it passed the test against
    [i * dist], and it is the running sum over a stretch of the list that ends
    at the i-th id returned. *)
Lemma rivids_loop_spec num_rivids dist todo : ∀ walked rivids dists net,
  length rivids = length dists →
  Z.of_nat (length rivids) ≤ num_rivids →
  cumulative e walked (f_of_int 0) = Some net →
  (∀ i d, dists !! i = Some d →
     f_gt d (f_mul (f_of_int (Z.of_nat i)) dist) = true
     ∧ ∃ w, w `prefix_of` walked ∧ last w = rivids !! i
            ∧ cumulative e w (f_of_int 0) = Some d) →
  ∃ rivids' dists',
    rivids_loop e num_rivids dist todo rivids dists net = inr (rivids', dists')
    ∧ length rivids' = length dists'
    ∧ Z.of_nat (length rivids') ≤ num_rivids
    ∧ ∀ i d, dists' !! i = Some d →
        f_gt d (f_mul (f_of_int (Z.of_nat i)) dist) = true
        ∧ ∃ w, w `prefix_of` (walked ++ todo) ∧ last w = rivids' !! i
               ∧ cumulative e w (f_of_int 0) = Some d.
Proof.
  induction todo as [|rivid todo IH]; intros walked rivids dists net Hlen Hnum Hnet Hinv.
  - exists rivids, dists. rewrite app_nil_r. by split_and!.
  - assert (∀ i d, dists !! i = Some d →
              f_gt d (f_mul (f_of_int (Z.of_nat i)) dist) = true
              ∧ ∃ w, w `prefix_of` (walked ++ rivid :: todo) ∧ last w = rivids !! i
                     ∧ cumulative e w (f_of_int 0) = Some d) as Hstop.
    { intros i d Hd. destruct (Hinv i d Hd) as (Hgt & w & Hw & Hl & Hc).
      split; [done |]. exists w. split_and!; try done. by apply prefix_app_r. }
    simpl. destruct (num_rivids <=? Z.of_nat (length rivids)) eqn:Hfull;
      [exists rivids, dists; by split_and! |].
    apply Z.leb_gt in Hfull.
    case_bool_decide as Hin; simpl; [| exists rivids, dists; by split_and!].
    destruct (length_of_listed rivid Hin) as (k & len & Hk & Hlenk).
    rewrite Hk, Hlenk.
    assert (length_of e rivid = Some len) as Hlo by (unfold length_of; by rewrite Hk).
    pose proof (cumulative_snoc _ _ _ _ _ Hnet Hlo) as Hnet'.
    replace (walked ++ rivid :: todo) with ((walked ++ [rivid]) ++ todo)
      by (by rewrite <- app_assoc).
    destruct (f_gt (f_add net len) (f_mul (f_of_int (Z.of_nat (length rivids))) dist))
      eqn:Hgt.
    + apply IH; try done.
      * by rewrite !length_app, Hlen.
      * rewrite length_app. simpl. lia.
      * intros i d Hd. destruct (decide (i < length dists)%nat) as [Hi|Hi].
        -- rewrite lookup_app_l in Hd by done.
           destruct (Hinv i d Hd) as (Hgt' & w & Hw & Hl & Hc).
           split; [done |]. exists w. split_and!; try done.
           ++ by apply prefix_app_r.
           ++ rewrite lookup_app_l by lia. done.
        -- rewrite lookup_app_r in Hd by lia.
           destruct (i - length dists)%nat as [|n] eqn:Hn; [| by destruct n].
           simpl in Hd. injection Hd as <-.
           assert (i = length rivids) as -> by lia.
           split; [done |]. exists (walked ++ [rivid]). split_and!; try done.
           rewrite last_snoc. rewrite lookup_app_r by lia.
           by rewrite Nat.sub_diag.
    + apply IH; try done.
      intros i d Hd. destruct (Hinv i d Hd) as (Hgt' & w & Hw & Hl & Hc).
      split; [done |]. exists w. split_and!; try done. by apply prefix_app_r.
Qed.

(** Nothing after an id that the shapefile does not list is looked at. *)
Lemma rivids_loop_stops num_rivids dist x post : ∀ pre rivids dists net,
  x ∉ shp_comids e →
  rivids_loop e num_rivids dist (pre ++ x :: post) rivids dists net
  = rivids_loop e num_rivids dist pre rivids dists net.
Proof.
  induction pre as [|r pre IH]; intros rivids dists net Hx; simpl.
  - destruct (num_rivids <=? Z.of_nat (length rivids)); [done |].
    by rewrite bool_decide_eq_false_2.
  - destruct (num_rivids <=? Z.of_nat (length rivids)); [done |].
    case_bool_decide; simpl; [| done].
    destruct (index_of r (shp_comids e)); [| done].
    destruct (river_lengths e !! n); [| done].
    destruct (f_gt _ _); by apply IH.
Qed.

(** The call always returns: it never raises. *)
Lemma get_rivids_total downstream num_rivids dist :
  ∃ rivids dists,
    get_rivids_along_downstream e downstream num_rivids dist = inr (rivids, dists).
Proof.
  unfold get_rivids_along_downstream.
  generalize (@nil Z) (@nil F) (f_of_int 0).
  induction downstream as [|r todo IH]; intros rivids dists net; simpl; [eauto |].
  destruct (num_rivids <=? Z.of_nat (length rivids)); [eauto |].
  case_bool_decide as Hin; simpl; [| eauto].
  destruct (length_of_listed r Hin) as (k & len & -> & ->).
  destruct (f_gt _ _); apply IH.
Qed.

Lemma index_of_absent x (l : list Z) : x ∉ l → index_of x l = None.
Proof.
  induction l as [|y l IH]; intros Hx; simpl; [done |].
  apply not_elem_of_cons in Hx as [Hne Hx].
  rewrite bool_decide_eq_false_2 by congruence. by rewrite IH.
Qed.

Lemma cumulative_app a : ∀ b acc,
  cumulative e (a ++ b) acc = cumulative e a acc ≫= cumulative e b.
Proof.
  induction a as [|r a IH]; intros b acc; simpl; [done |].
  destruct (length_of e r); [apply IH | done].
Qed.

Lemma cumulative_absent walked x rest acc :
  x ∉ shp_comids e → cumulative e (walked ++ x :: rest) acc = None.
Proof.
  intros Hx. rewrite cumulative_app.
  destruct (cumulative e walked acc) as [net|]; [| done]. simpl.
  unfold length_of. by rewrite index_of_absent.
Qed.

(** One more id at the end of the list: the loop either has stopped before
    it, or it adds the id's length to the running sum and tests the sum
    against the number of ids returned so far. *)
Lemma rivids_loop_snoc num_rivids dist r todo : ∀ walked rivids dists net R D,
  cumulative e walked (f_of_int 0) = Some net →
  rivids_loop e num_rivids dist todo rivids dists net = inr (R, D) →
  rivids_loop e num_rivids dist (todo ++ [r]) rivids dists net
  = inr (match cumulative e (walked ++ todo ++ [r]) (f_of_int 0) with
         | Some n =>
             if (Z.of_nat (length R) <? num_rivids)
                && f_gt n (f_mul (f_of_int (Z.of_nat (length R))) dist)
             then (R ++ [r], D ++ [n]) else (R, D)
         | None => (R, D)
         end).
Proof.
  induction todo as [|x todo IH]; intros walked rivids dists net R D Hnet Hrun;
    simpl in Hrun.
  - assert (R = rivids ∧ D = dists) as [-> ->] by (by injection Hrun). simpl.
    destruct (num_rivids <=? Z.of_nat (length rivids)) eqn:Hfull.
    { apply Z.leb_le in Hfull.
      replace (Z.of_nat (length rivids) <? num_rivids) with false
        by (symmetry; apply Z.ltb_ge; lia).
      by destruct (cumulative e (walked ++ [r]) (f_of_int 0)). }
    apply Z.leb_gt in Hfull.
    case_bool_decide as Hin; simpl.
    2: { by rewrite cumulative_absent. }
    destruct (length_of_listed r Hin) as (k & len & Hk & Hlenk). rewrite Hk, Hlenk.
    assert (length_of e r = Some len) as Hlo by (unfold length_of; by rewrite Hk).
    rewrite (cumulative_snoc _ _ _ _ _ Hnet Hlo).
    replace (Z.of_nat (length rivids) <? num_rivids) with true
      by (symmetry; apply Z.ltb_lt; lia).
    simpl. by destruct (f_gt _ _).
  - simpl. destruct (num_rivids <=? Z.of_nat (length rivids)) eqn:Hfull.
    { assert (R = rivids ∧ D = dists) as [-> ->] by (by injection Hrun). apply Z.leb_le in Hfull.
      replace (Z.of_nat (length rivids) <? num_rivids) with false
        by (symmetry; apply Z.ltb_ge; lia).
      by destruct (cumulative e (walked ++ x :: todo ++ [r]) (f_of_int 0)). }
    destruct (decide (x ∈ shp_comids e)) as [Hin | Hout].
    2: { rewrite bool_decide_eq_false_2 in Hrun |- * by done. simpl in *.
         assert (R = rivids ∧ D = dists) as [-> ->] by (by injection Hrun). by rewrite cumulative_absent. }
    rewrite bool_decide_eq_true_2 in Hrun |- * by done. simpl in *.
    destruct (length_of_listed x Hin) as (k & len & Hk & Hlenk).
    rewrite Hk, Hlenk in Hrun |- *.
    assert (length_of e x = Some len) as Hlo by (unfold length_of; by rewrite Hk).
    pose proof (cumulative_snoc _ _ _ _ _ Hnet Hlo) as Hnet'.
    replace (walked ++ x :: todo ++ [r]) with ((walked ++ [x]) ++ todo ++ [r])
      by (by rewrite <- app_assoc).
    destruct (f_gt (f_add net len) _); by apply IH.
Qed.

(** C2: for num_rivids >= 0 and any dist, get_rivids_along_downstream returns
    two lists of equal length at most num_rivids; the i-th distance exceeded
    i * dist and is the cumulative sum of the shapefile lengths of the reaches
    walked along downstream_rivers_list up to the i-th id returned; and the walk
    stops at the first id that the shapefile's id list lacks.  Which reaches
    are returned is fixed as well: none for an empty list, and the last id of a
    list is added to what the list before it gives exactly when every id so
    far is in the shapefile, fewer than num_rivids ids are returned already
    and the cumulative sum up to it exceeds their number times dist. *)
Theorem get_rivids_along_downstream_spec (downstream : list Z) (num_rivids : Z) (dist : F) :
  0 ≤ num_rivids →
  ∃ rivids dists,
    get_rivids_along_downstream e downstream num_rivids dist = inr (rivids, dists)
    ∧ length rivids = length dists
    ∧ Z.of_nat (length rivids) ≤ num_rivids
    ∧ (∀ i d, dists !! i = Some d →
         f_gt d (f_mul (f_of_int (Z.of_nat i)) dist) = true
         ∧ ∃ walked, walked `prefix_of` downstream ∧ last walked = rivids !! i
                     ∧ cumulative e walked (f_of_int 0) = Some d)
    ∧ (∀ pre x post, downstream = pre ++ x :: post → x ∉ shp_comids e →
         get_rivids_along_downstream e downstream num_rivids dist
         = get_rivids_along_downstream e pre num_rivids dist)
    ∧ (downstream = [] → rivids = [] ∧ dists = [])
    ∧ (∀ pre r rivids0 dists0, downstream = pre ++ [r] →
         get_rivids_along_downstream e pre num_rivids dist = inr (rivids0, dists0) →
         (rivids, dists)
         = match cumulative e downstream (f_of_int 0) with
           | Some net =>
               if (Z.of_nat (length rivids0) <? num_rivids)
                  && f_gt net (f_mul (f_of_int (Z.of_nat (length rivids0))) dist)
               then (rivids0 ++ [r], dists0 ++ [net]) else (rivids0, dists0)
           | None => (rivids0, dists0)
           end).
Proof.
  intros Hnum. unfold get_rivids_along_downstream.
  destruct (rivids_loop_spec num_rivids dist downstream [] [] [] (f_of_int 0))
    as (rivids & dists & Hrun & Hlen & Hmax & Hd); try done.
  exists rivids, dists. split_and!; try done.
  - intros pre x post -> Hx. by apply rivids_loop_stops.
  - intros ->. simpl in Hrun. by injection Hrun as <- <-.
  - intros pre r rivids0 dists0 -> Hpre.
    rewrite (rivids_loop_snoc num_rivids dist r pre [] [] [] (f_of_int 0) rivids0 dists0)
      in Hrun; [| done | done].
    simpl in Hrun. by injection Hrun as <-.
Qed.

End Rivids.

Section Callbacks.
Context {F : Type} {ip : IntParser} {pf : PyFloat F} {lib : SciLib F}.
#[local] Existing Instances M_ret M_bind.

(** *** Relations that every step of a callback keeps *)

Section Frame.
Variable R : state (F := F) → state (F := F) → Prop.
Hypothesis R_refl : ∀ st, R st st.
Hypothesis R_trans : ∀ a b c, R a b → R b c → R a c.

Lemma keeps_ret {A} (a : A) : keeps R (mret a).
Proof. intros st. apply R_refl. Qed.

Lemma keeps_get : keeps R get.
Proof. intros st. apply R_refl. Qed.

Lemma keeps_emit ef : keeps R (emit ef).
Proof. intros st. apply R_refl. Qed.

Lemma keeps_emit_all efs : keeps R (emit_all efs).
Proof. intros st. apply R_refl. Qed.

Lemma keeps_raise {A} x : keeps R (raise (A := A) x).
Proof. intros st. apply R_refl. Qed.

Lemma keeps_lift {A} (r : exn + A) : keeps R (lift r).
Proof. destruct r; [apply keeps_raise | apply keeps_ret]. Qed.

Lemma keeps_modify f : (∀ st, R st (f st)) → keeps R (modify f).
Proof. intros Hf st. apply Hf. Qed.

Lemma keeps_bind {A B} (m : M A) (f : A → M B) :
  keeps R m → (∀ a, keeps R (f a)) → keeps R (m ≫= f).
Proof.
  intros Hm Hf st. specialize (Hm st).
  unfold final_state, mbind, M_bind in *.
  destruct (m st) as [[[a | x |] st1] out1]; simpl in *; try done.
  specialize (Hf a st1). unfold final_state in Hf.
  destruct (f a st1) as [[r st2] out2]; simpl in *. by eapply R_trans.
Qed.

End Frame.

Ltac keeps_step Hrefl Htrans :=
  match goal with
  | |- keeps _ (mret _) => apply (keeps_ret _ Hrefl)
  | |- keeps _ get => apply (keeps_get _ Hrefl)
  | |- keeps _ (emit _) => apply (keeps_emit _ Hrefl)
  | |- keeps _ (emit_all _) => apply (keeps_emit_all _ Hrefl)
  | |- keeps _ (raise _) => apply (keeps_raise _ Hrefl)
  | |- keeps _ (lift _) => apply (keeps_lift _ Hrefl)
  | |- keeps _ (modify _) => apply keeps_modify; intros ?
  | |- keeps _ (match ?x with _ => _ end) => destruct x
  | |- keeps _ (mbind _ _) => apply (keeps_bind _ Htrans); [| intros ?]
  end.

(** *** The threshold level *)

Lemma same_threshold_refl (st : state (F := F)) : same_threshold st st.
Proof. done. Qed.

Lemma same_threshold_trans (a b c : state (F := F)) :
  same_threshold a b → same_threshold b c → same_threshold a c.
Proof. unfold same_threshold. congruence. Qed.

Lemma choose_downstream_same_threshold fuel (e : env (F := F)) rivid :
  keeps same_threshold (choose_downstream fuel e rivid).
Proof.
  intros st. unfold choose_downstream, final_state.
  by destruct (Downstream.choose_downstream _ _ _ _) as [l [| x |]].
Qed.

Lemma handle_same_threshold fuel (e : env (F := F)) ev : keeps same_threshold (handle fuel e ev).
Proof.
  destruct ev; unfold handle, on_pick, set_threshold_level, update_num_reaches,
    update_reach_dist, show_discharge_over_time, show_propagation, show_event_duration,
    reset, save_all, close_all, draw_map, create_config_window, redraw_canvases,
    new_figure, run_loop, update_idle;
    repeat first
      [ apply choose_downstream_same_threshold
      | keeps_step same_threshold_refl same_threshold_trans ];
    done.
Qed.

(** C9: in every state the program can reach, threshold_level is its initial
    value "90"; whatever text is submitted, set_threshold_level leaves it
    there, so the percentile that the discharge and event-duration plots read
    is float("90"). *)
Theorem threshold_level_never_changes (e : env (F := F)) (st : state) :
  reachable e st →
  threshold_level st = "90"
  ∧ (∀ text, threshold_level (final_state (set_threshold_level text st)) = "90")
  ∧ threshold_of st
    = match py_float "90" with Some q => inr q | None => inl ValueError end.
Proof.
  intros Hreach.
  assert (threshold_level st = "90") as Hst.
  { induction Hreach as [st Hinit | st fuel ev Hreach IH].
    - unfold initial_state in Hinit.
      destruct (py_int "5"); [| done]. destruct (py_float "117"); [| done].
      simpl in Hinit. by injection Hinit as <-.
    - by rewrite (handle_same_threshold fuel e ev st). }
  split_and!; [done | |].
  - intros text. rewrite <- Hst.
    exact (handle_same_threshold O e (SubmitThreshold text) st).
  - unfold threshold_of. by rewrite Hst.
Qed.

(** *** The downstream list *)

Lemma list_grows_refl (st : state (F := F)) : list_grows st st.
Proof. unfold list_grows. reflexivity. Qed.

Lemma list_grows_trans (a b c : state (F := F)) :
  list_grows a b → list_grows b c → list_grows a c.
Proof. unfold list_grows. by intros; etrans. Qed.

Lemma choose_downstream_final fuel (e : env (F := F)) rivid st :
  downstream_rivers_list (final_state (choose_downstream fuel e rivid st))
  = (Downstream.choose_downstream fuel (connectivity e) rivid (downstream_rivers_list st)).1.
Proof.
  unfold choose_downstream, final_state.
  by destruct (Downstream.choose_downstream _ _ _ _) as [l [| x |]].
Qed.

Lemma choose_downstream_list_grows fuel (e : env (F := F)) rivid :
  keeps list_grows (choose_downstream fuel e rivid).
Proof.
  intros st. unfold list_grows. rewrite choose_downstream_final.
  apply DownstreamFacts.choose_downstream_prefix.
Qed.

Lemma handle_list_grows fuel (e : env (F := F)) ev :
  ev ≠ ClickReset → keeps list_grows (handle fuel e ev).
Proof.
  intros Hev.
  destruct ev; try done; unfold handle, on_pick, set_threshold_level, update_num_reaches,
    update_reach_dist, show_discharge_over_time, show_propagation, show_event_duration,
    save_all, close_all, draw_map, create_config_window, redraw_canvases,
    new_figure, run_loop, update_idle;
    repeat first
      [ apply choose_downstream_list_grows
      | keeps_step list_grows_refl list_grows_trans ];
    unfold list_grows; simpl; reflexivity.
Qed.

Lemma reset_empties (st : state (F := F)) :
  downstream_rivers_list (final_state (reset st)) = [].
Proof. reflexivity. Qed.

(** C10: choose_downstream never removes or replaces elements of
    downstream_rivers_list: the list before the call is a prefix of the list
    after it, and what is appended is the path the call would build from an
    empty list, so a second pick adds its path after the first.  Over all
    callbacks, an event either leaves the old list as a prefix of the new one
    or is the reset button, and reset leaves the list empty. *)
Theorem downstream_list_only_grows
    (e : env (F := F)) (fuel : nat) (st : state) (rivid : Z) (ev : event) :
  downstream_rivers_list st
    `prefix_of` downstream_rivers_list (final_state (choose_downstream fuel e rivid st))
  ∧ downstream_rivers_list (final_state (choose_downstream fuel e rivid st))
    = downstream_rivers_list st
      ++ (Downstream.choose_downstream fuel (connectivity e) rivid []).1
  ∧ (downstream_rivers_list st
       `prefix_of` downstream_rivers_list (final_state (handle fuel e ev st))
     ∨ ev = ClickReset)
  ∧ downstream_rivers_list (final_state (handle fuel e ClickReset st)) = [].
Proof.
  split_and!.
  - apply (choose_downstream_list_grows fuel e rivid st).
  - rewrite choose_downstream_final.
    by rewrite DownstreamFacts.choose_downstream_accumulates.
  - assert (ev = ClickReset ∨ ev ≠ ClickReset) as [-> | Hev]
      by (destruct ev; (by left) || (by right)).
    { by right. }
    left.
    by apply (handle_list_grows fuel e ev Hev st).
  - apply reset_empties.
Qed.

(** *** The plot windows need a selection *)

(** C5: with an empty downstream selection, each of show_propagation,
    show_event_duration and show_discharge_over_time returns with the module
    state and the figure registry as they were; no figure is created, and the
    only effect is the redraw request that the first two send to the control
    window before they look at the selection. *)
Theorem plots_need_a_selection (e : env (F := F)) (st : state) :
  downstream_rivers_list st = [] →
  show_propagation e st = (Ret tt, st, [DrawIdle (fig_config st)])
  ∧ show_event_duration e st = (Ret tt, st, [DrawIdle (fig_config st)])
  ∧ show_discharge_over_time e st = (Ret tt, st, []).
Proof.
  intros Hempty. split_and!.
  - unfold show_propagation, update_idle, mbind, M_bind, get, emit. simpl.
    case_bool_decide; [done |]. by rewrite Hempty.
  - unfold show_event_duration, update_idle, mbind, M_bind, get, emit. simpl.
    case_bool_decide; [done |]. by rewrite Hempty.
  - unfold show_discharge_over_time, mbind, M_bind, get. simpl.
    case_bool_decide; [done |]. by rewrite Hempty.
Qed.

(** *** Text boxes *)

Lemma draw_map_runs (e : env (F := F)) (st : state) :
  ∃ rivids, draw_map e st = (Ret tt, st, [DrawMap (downstream_rivers_list st) rivids]).
Proof.
  destruct (get_rivids_total e (downstream_rivers_list st) (num_reaches st) (reach_dist st))
    as (rivids & dists & Hrun).
  exists rivids. unfold draw_map, mbind, M_bind, get, emit. by rewrite Hrun.
Qed.

(** C7 (as amended): a text that does not read as a number makes the setting
    fall back: update_num_reaches leaves num_reaches at 0 and
    update_reach_dist leaves reach_dist at default_reach_dist, or where it was
    if that already compares equal to the default.  No warning is printed.
    When the value changes the callback prints its usual status line for the
    new value and redraws; when the value already is the fallback it prints
    nothing and only asks the control window to redraw.  (The warning about a
    distance of 0 shows only if the default itself compares equal to 0.) *)
Theorem unparsable_text_falls_back
    (e : env (F := F)) (st : state) (text_n text_d : string) :
  py_int text_n = None →
  py_float text_d = None →
  (result (update_num_reaches e text_n st) = Ret tt
   ∧ num_reaches (final_state (update_num_reaches e text_n st)) = 0
   ∧ (num_reaches st = 0 →
        emitted (update_num_reaches e text_n st) = [DrawIdle (fig_config st)])
   ∧ (num_reaches st ≠ 0 →
        ∃ rivids, emitted (update_num_reaches e text_n st)
          = [Print [VStr "Showing"; VInt 0; VStr "river reaches"];
             DrawMap (downstream_rivers_list st) rivids;
             DrawIdle 1; DrawIdle (fig_config st)]))
  ∧ (result (update_reach_dist e text_d st) = Ret tt
     ∧ (f_eq (default_reach_dist st) (f_of_int 0) = false →
        f_eq (reach_dist st) (default_reach_dist st) = true →
          reach_dist (final_state (update_reach_dist e text_d st)) = reach_dist st
          ∧ emitted (update_reach_dist e text_d st) = [DrawIdle (fig_config st)])
     ∧ (f_eq (default_reach_dist st) (f_of_int 0) = false →
        f_eq (reach_dist st) (default_reach_dist st) = false →
          reach_dist (final_state (update_reach_dist e text_d st)) = default_reach_dist st
          ∧ ∃ rivids, emitted (update_reach_dist e text_d st)
              = [Print [VStr "Maintaining a distance of"; VFloat (default_reach_dist st);
                        VStr "km"; VStr "between river reaches"];
                 DrawMap (downstream_rivers_list st) rivids;
                 DrawIdle 1; DrawIdle (fig_config st)])
     ∧ (f_eq (default_reach_dist st) (f_of_int 0) = true →
          reach_dist (final_state (update_reach_dist e text_d st)) = default_reach_dist st
          ∧ ∃ rivids, emitted (update_reach_dist e text_d st)
              = [Print [VStr zero_distance_error; VFloat (default_reach_dist st); VStr "km."];
                 Print [VStr "Maintaining a distance of"; VFloat (default_reach_dist st);
                        VStr "km"; VStr "between river reaches"];
                 DrawMap (downstream_rivers_list st) rivids;
                 DrawIdle 1; DrawIdle (fig_config st)])).
Proof.
  intros Hn Hd. split.
  - unfold update_num_reaches, redraw_canvases, update_idle, mbind, M_bind, modify, get, emit.
    rewrite Hn. cbn -[draw_map].
    destruct (draw_map_runs e (set_num_reaches 0 (set_num_reaches_str text_n st)))
      as [rivids Hdraw].
    case_bool_decide as Hz.
    + split_and!; try done.
    + rewrite Hdraw. cbn. split_and!; try done. intros _. by exists rivids.
  - unfold update_reach_dist, redraw_canvases, update_idle, mbind, M_bind, modify, get, emit.
    rewrite Hd. cbn -[draw_map].
    destruct (draw_map_runs e
                (set_reach_dist (default_reach_dist st) (set_reach_dist_str text_d st)))
      as [rivids Hdraw].
    destruct (f_eq (default_reach_dist st) (f_of_int 0)) eqn:Hzero.
    + rewrite Hdraw. cbn. split_and!; try done. intros _. split; [done |]. by exists rivids.
    + destruct (f_eq (reach_dist st) (default_reach_dist st)) eqn:Hsame.
      * cbn. split_and!; try done.
      * rewrite Hdraw. cbn. split_and!; try done. intros _ _. split; [done |]. by exists rivids.
Qed.

(** *** The propagation plot *)








End Callbacks.

(** *** The statements at work on the small network, with binary64 floats *)

Import Binary64.

Lemma get_rivids_along_downstream_spec_witness :
  get_rivids_along_downstream small_env [1; 2; 3; 0] 5 (float_of_Z 15)
  = inr ([1; 2; 3], [float_of_Z 10; float_of_Z 30; float_of_Z 60])
  ∧ (∀ i d, [float_of_Z 10; float_of_Z 30; float_of_Z 60] !! i = Some d →
       f_gt d (f_mul (f_of_int (Z.of_nat i)) (float_of_Z 15)) = true
       ∧ ∃ walked, walked `prefix_of` [1; 2; 3; 0] ∧ last walked = [1; 2; 3] !! i
                   ∧ cumulative small_env walked (f_of_int 0) = Some d)
  ∧ (∀ pre x post, [1; 2; 3; 0] = pre ++ x :: post → x ∉ shp_comids small_env →
       get_rivids_along_downstream small_env [1; 2; 3; 0] 5 (float_of_Z 15)
       = get_rivids_along_downstream small_env pre 5 (float_of_Z 15))
  ∧ get_rivids_along_downstream small_env [1; 2; 3] 5 (float_of_Z 25)
    = inr ([1; 2; 3], [float_of_Z 10; float_of_Z 30; float_of_Z 60])
  ∧ get_rivids_along_downstream small_env [1; 2; 3] 5 (float_of_Z 35)
    = inr ([1; 3], [float_of_Z 10; float_of_Z 60]).
Proof.
  assert (0 ≤ 5) as Hnum by lia.
  destruct (get_rivids_along_downstream_spec small_env [1; 2; 3; 0] 5 (float_of_Z 15) Hnum)
    as (rivids & dists & Hrun & _ & _ & Hd & Hstop & _).
  assert (get_rivids_along_downstream small_env [1; 2; 3; 0] 5 (float_of_Z 15)
          = inr ([1; 2; 3], [float_of_Z 10; float_of_Z 30; float_of_Z 60])) as Hval
    by (by vm_compute).
  rewrite Hval in Hrun. injection Hrun as <- <-.
  split_and!; [exact Hval | exact Hd | exact Hstop | by vm_compute | by vm_compute].
Defined.

Lemma plots_need_a_selection_witness :
  show_propagation small_env start_state = (Ret tt, start_state, [DrawIdle 2])
  ∧ show_event_duration small_env start_state = (Ret tt, start_state, [DrawIdle 2])
  ∧ show_discharge_over_time small_env start_state = (Ret tt, start_state, []).
Proof.
  apply (plots_need_a_selection small_env start_state). reflexivity.
Defined.

Lemma unparsable_text_falls_back_witness :
  py_int "abc" = None ∧ py_float "abc" = None
  ∧ num_reaches (final_state (update_num_reaches small_env "abc" start_state)) = 0
  ∧ (∃ rivids, emitted (update_num_reaches small_env "abc" start_state)
       = [Print [VStr "Showing"; VInt 0; VStr "river reaches"];
          DrawMap [] rivids; DrawIdle 1; DrawIdle 2])
  ∧ emitted (update_reach_dist small_env "abc" start_state) = [DrawIdle 2].
Proof.
  assert (py_int "abc" = None) as Hn by reflexivity.
  assert (py_float "abc" = None) as Hd by reflexivity.
  destruct (unparsable_text_falls_back small_env start_state "abc" "abc" Hn Hd)
    as [(_ & Hzero & _ & Hprint) (_ & Hquiet & _)].
  split_and!; [done | done | exact Hzero | |].
  - apply Hprint. by vm_compute.
  - apply Hquiet; by vm_compute.
Defined.

(** C7, where the stated claim fails: right after start-up the distance is the
    default, and "abc" in the distance box prints nothing at all; likewise
    "abc" in the reaches box once the number of reaches is 0. *)
Lemma unparsable_text_prints_nothing :
  initial_state = Some start_state
  ∧ py_float "abc" = None
  ∧ update_reach_dist small_env "abc" start_state
    = (Ret tt, set_reach_dist_str "abc" start_state, [DrawIdle 2])
  ∧ py_int "abc" = None
  ∧ update_num_reaches small_env "abc"
      (final_state (update_num_reaches small_env "0" start_state))
    = (Ret tt,
       set_num_reaches_str "abc" (final_state (update_num_reaches small_env "0" start_state)),
       [DrawIdle 2]).
Proof. split_and!; by vm_compute. Qed.



Lemma threshold_level_never_changes_witness :
  threshold_level picked_state = "90"
  ∧ (∀ text, threshold_level (final_state (set_threshold_level text picked_state)) = "90")
  ∧ threshold_of picked_state = inr (float_of_Z 90).
Proof.
  destruct (threshold_level_never_changes small_env picked_state) as (Hst & Hset & Hq).
  - unfold picked_state. apply reach_step, reach_step, reach_init. reflexivity.
  - split_and!; [exact Hst | exact Hset | rewrite Hq; reflexivity].
Defined.

End ViewerFacts.

(** * Further properties of the same code *)

Module DownstreamMore.
Import Downstream DownstreamFacts.

Section Walk.
Variable connectivity : gmap Z (list Z).

Lemma orbit_add a : ∀ b r,
  orbit connectivity (a + b) r = orbit connectivity a r ≫= orbit connectivity b.
Proof.
  induction a as [|a IH]; intros b r; simpl; [done |].
  by destruct (connectivity !! r) as [[|next rest]|].
Qed.

Lemma orbit_defined_before a b r :
  is_Some (orbit connectivity (a + b) r) → is_Some (orbit connectivity a r).
Proof.
  rewrite orbit_add. destruct (orbit connectivity a r); [eauto |].
  simpl. by intros [? ?].
Qed.

(** A walk that comes back to its start goes on for ever. *)
Lemma orbit_cycle_forever (k : nat) (start : Z) :
  (0 < k)%nat → orbit connectivity k start = Some start →
  ∀ n, is_Some (orbit connectivity n start).
Proof.
  intros Hk Hcycle n. induction (lt_wf n) as [n _ IH].
  destruct (decide (n < k)%nat) as [Hlt|Hge].
  - apply (orbit_defined_before n (k - n)). replace (n + (k - n))%nat with k by lia.
    rewrite Hcycle. eauto.
  - replace n with (k + (n - k))%nat by lia. rewrite orbit_add, Hcycle. simpl.
    apply IH. lia.
Qed.

Lemma downstream_loop_diverges fuel : ∀ r drl,
  (∀ n, is_Some (orbit connectivity n r)) →
  ∃ more, downstream_loop fuel connectivity r drl = (drl ++ more, Diverged)
          ∧ length more = fuel.
Proof.
  induction fuel as [|fuel IH]; intros r drl Hall.
  - pose proof (Hall 1%nat) as [x Hx]. simpl in *.
    destruct (connectivity !! r) as [[|next rest]|]; try done.
    exists []. by rewrite app_nil_r.
  - pose proof (Hall 1%nat) as [x Hx]. simpl in Hx. simpl.
    destruct (connectivity !! r) as [[|next rest]|] eqn:Hk; try done.
    destruct (IH next (drl ++ [next])) as (more & -> & Hlen).
    { intros n. specialize (Hall (S n)). by rewrite (orbit_S_key _ _ _ _ _ Hk) in Hall. }
    exists (next :: more). rewrite <- app_assoc. simpl. by rewrite Hlen.
Qed.

(** The path related to a start by [downstream_path] is the walk itself, and
    it ends at an id that is not a key. *)
Lemma downstream_path_walk r path :
  downstream_path connectivity r path →
  (∀ i x, path !! i = Some x → orbit connectivity i r = Some x)
  ∧ (∀ i x, path !! i = Some x → (S i < length path)%nat → is_Some (connectivity !! x))
  ∧ ∃ sink, last path = Some sink ∧ connectivity !! sink = None.
Proof.
  induction 1 as [r Hsink | r next rest tl Hk Hpath (IHo & IHk & sink & Hlast & Hs)].
  - split_and!.
    + intros [|i] x Hx; [by injection Hx as <- | done].
    + intros [|i] x Hx Hlen; simpl in *; [lia | done].
    + by exists r.
  - split_and!.
    + intros [|i] x Hx; simpl in Hx.
      * by injection Hx as <-.
      * rewrite (orbit_S_key _ _ _ _ _ Hk). by apply IHo.
    + intros [|i] x Hx Hlen; simpl in *.
      * injection Hx as <-. eauto.
      * apply (IHk i); [done | lia].
    + exists sink. split; [| done]. destruct tl; [done | by simpl in *].
Qed.

End Walk.

(** X1: on a connectivity whose first entries lead back to the start, the
    loop of choose_downstream never ends: whatever the budget, it is used up
    and the list has grown by the start and one id per iteration. *)
Theorem choose_downstream_cycle_diverges
    (connectivity : gmap Z (list Z)) (start : Z) (k : nat) (fuel : nat) (drl : list Z) :
  (0 < k)%nat →
  orbit connectivity k start = Some start →
  ∃ more, choose_downstream fuel connectivity start drl = (drl ++ start :: more, Diverged)
          ∧ length more = fuel.
Proof.
  intros Hk Hcycle. unfold choose_downstream.
  destruct (downstream_loop_diverges connectivity fuel start (drl ++ [start]))
    as (more & -> & Hlen).
  - by apply (orbit_cycle_forever connectivity k).
  - exists more. by rewrite <- app_assoc.
Qed.

Lemma choose_downstream_cycle_diverges_witness :
  ∃ more, choose_downstream 5 (<[1 := [2]]> (<[2 := [1; 7]]> ∅)) 1 [9]
          = ([9] ++ 1 :: more, Diverged)
          ∧ length more = 5%nat.
Proof.
  apply (choose_downstream_cycle_diverges _ 1 2); [lia | reflexivity].
Defined.

(** X2: when choose_downstream returns under the no-revisit precondition,
    the path it appended starts at the picked id, repeats no id, has only keys
    before its last id, ends at an id that is not a key, and is at most one
    longer than the mapping has keys. *)
Theorem returned_path_shape
    (connectivity : gmap Z (list Z)) (start : Z) (drl : list Z) (fuel : nat) :
  never_revisits connectivity start →
  first_entries_exist connectivity start →
  (size connectivity ≤ fuel)%nat →
  ∃ path, choose_downstream fuel connectivity start drl = (drl ++ path, Returned)
    ∧ head path = Some start
    ∧ NoDup path
    ∧ (∀ i x, path !! i = Some x → (S i < length path)%nat → is_Some (connectivity !! x))
    ∧ (∃ sink, last path = Some sink ∧ connectivity !! sink = None)
    ∧ (length path ≤ S (size connectivity))%nat.
Proof.
  intros Hnr Hne Hfuel. unfold choose_downstream.
  destruct (downstream_loop_returns connectivity fuel start (drl ++ [start]) ∅)
    as (path & Hrun & Hpath); try done.
  { rewrite size_dom, size_empty. lia. }
  destruct (downstream_path_walk connectivity start (start :: path) Hpath)
    as (Horbit & Hkeys & Hsink).
  assert (NoDup (start :: path)) as Hnd.
  { apply NoDup_alt. intros i j x Hi Hj.
    destruct (Nat.lt_trichotomy i j) as [Hlt | [-> | Hlt]]; [| done |].
    - exfalso. apply (Hnr i j x Hlt); by apply Horbit.
    - exfalso. apply (Hnr j i x Hlt); by apply Horbit. }
  exists (start :: path). rewrite Hrun, <- app_assoc. split_and!; try done.
  destruct Hsink as (sink & Hlast & Hs).
  assert (∃ front, start :: path = front ++ [sink]) as [front Hfront].
  { destruct (start :: path) as [|a l] using rev_ind; [done |].
    rewrite last_snoc in Hlast. injection Hlast as ->. by exists l. }
  rewrite Hfront in *. rewrite length_app. simpl.
  assert (length front ≤ size connectivity)%nat; [| lia].
  apply NoDup_app in Hnd as (Hfnd & _ & _).
  rewrite <- size_dom.
  change (length front ≤ length (elements (dom connectivity)))%nat.
  apply submseteq_length, NoDup_submseteq; [done |].
  intros x Hx. apply elem_of_elements, elem_of_dom.
  apply list_elem_of_lookup in Hx as [i Hi].
  apply (Hkeys i).
  - by apply lookup_app_l_Some.
  - rewrite length_app. simpl. apply lookup_lt_Some in Hi. lia.
Qed.

Lemma returned_path_shape_witness :
  ∃ path, choose_downstream 4 Binary64.small_connectivity 7 [1; 2] = ([1; 2] ++ path, Returned)
    ∧ head path = Some 7
    ∧ NoDup path
    ∧ (∀ i x, path !! i = Some x → (S i < length path)%nat
         → is_Some (Binary64.small_connectivity !! x))
    ∧ (∃ sink, last path = Some sink ∧ Binary64.small_connectivity !! sink = None)
    ∧ (length path ≤ S (size Binary64.small_connectivity))%nat.
Proof.
  apply returned_path_shape.
  - apply (walk_checked_never_revisits _ 3). split; [by vm_compute |].
    apply (bool_decide_unpack _). by vm_compute.
  - intros n r Hn.
    destruct n as [|[|[|n]]]; vm_compute in Hn; try discriminate;
      injection Hn as <-; by vm_compute.
  - by vm_compute.
Defined.

End DownstreamMore.

Module CliMore.
Import Cli.

(** X3: the argument handling lets the program go on only when there is no
    positional argument at all, and then every path is the built-in default;
    with any argument it raises or exits. *)
Theorem get_args_accepts_no_argument (argv : list string) :
  ((length argv ≤ 1)%nat → get_args argv = (inr default_paths, []))
  ∧ (∀ p out, get_args argv = (inr p, out) → (length argv ≤ 1)%nat ∧ p = default_paths).
Proof.
  destruct argv as [|a0 [|a1 [|a2 [|a3 [|a4 rest]]]]]; simpl length; split;
    try (intros; lia); try reflexivity; try (intros p out Hrun; by vm_compute in Hrun).
  - intros p out Hrun. injection Hrun as <- <-. split; [lia | done].
  - intros p out Hrun. injection Hrun as <- <-. split; [lia | done].
  - intros p out Hrun. unfold get_args in Hrun.
    replace (4 <? Z.of_nat (length (a0 :: a1 :: a2 :: a3 :: a4 :: rest))) with true in Hrun;
      [done |].
    symmetry. apply Z.ltb_lt. simpl length. lia.
Qed.

End CliMore.

Module LoaderMore.
Import Loader LoaderFacts.

Lemma assign_all_lookup_in kvs : ∀ (m : gmap Z (list Z)) k v,
  assign_all kvs m !! k = Some v → m !! k = Some v ∨ (k, v) ∈ kvs.
Proof.
  induction kvs as [|[k0 v0] kvs IH]; intros m k v Hk; [by left |].
  unfold assign_all in Hk. simpl in Hk. fold (assign_all kvs (<[k0 := v0]> m)) in Hk.
  destruct (IH _ _ _ Hk) as [Hm | Hin].
  - destruct (decide (k0 = k)) as [-> | Hne].
    + rewrite lookup_insert_eq in Hm. injection Hm as ->. right. by left.
    + rewrite lookup_insert_ne in Hm by done. by left.
  - right. by right.
Qed.

Section WithParser.
Context {ip : IntParser}.

Lemma ints_of_length l : ∀ data, ints_of l = inr data → length data = length l.
Proof.
  intros data Hd. apply ints_of_inv in Hd. symmetry. by eapply Forall2_length.
Qed.

Lemma load_rows_stops good : ∀ kvs bad rest x m,
  parsed_rows good = Some kvs → parse_row bad = inl x →
  load_rows (good ++ bad :: rest) m = inl x.
Proof.
  induction good as [|row good IH]; intros kvs bad rest x m Hgood Hbad; simpl in *.
  - by rewrite Hbad.
  - destruct (parse_row row) as [e|[k v]]; [done |].
    destruct (parsed_rows good) as [kvs'|] eqn:Hp; [| done].
    by apply (IH kvs').
Qed.

(** X4: loading stops at the first row that does not read and ends with that
    row's exception (IndexError for an empty row, ValueError for a field that
    is no integer), whatever the later rows hold. *)
Theorem load_stops_at_first_bad_row
    (good : list (list string)) (kvs : list (Z * list Z))
    (bad : list string) (rest : list (list string)) (x : exn) :
  parsed_rows good = Some kvs →
  parse_row bad = inl x →
  load_connectivity (good ++ bad :: rest) = inl x
  ∧ (bad = [] → x = IndexError)
  ∧ (bad ≠ [] → x = ValueError).
Proof.
  intros Hgood Hbad. split_and!.
  - unfold load_connectivity. by eapply load_rows_stops.
  - intros ->. unfold parse_row in Hbad. simpl in Hbad. by injection Hbad as <-.
  - intros Hne. unfold parse_row in Hbad.
    destruct bad as [|first cols]; [done |]. simpl in Hbad.
    assert (∀ l e, ints_of l = inl e → e = ValueError) as Hints.
    { induction l as [|d l IHl]; intros e He; simpl in He; [done |].
      destruct (py_int d); [| by injection He as <-].
      destruct (ints_of l) as [e'|zs] eqn:Hl; [| done].
      injection He as <-. by apply IHl. }
    destruct (ints_of cols) as [e|data] eqn:Hc.
    + injection Hbad as <-. by apply (Hints cols).
    + destruct (py_int (remove_spaces first)); [done |]. by injection Hbad as <-.
Qed.

(** X5: an id that is no row's first column is not a key of the loaded
    mapping, so choose_downstream appends just that id and returns. *)
Theorem unlisted_id_is_a_sink
    (rows : list (list string)) (kvs : list (Z * list Z)) (k : Z) :
  parsed_rows rows = Some kvs →
  k ∉ kvs.*1 →
  ∃ m, load_connectivity rows = inr m
    ∧ m !! k = None
    ∧ ∀ fuel drl, Downstream.choose_downstream fuel m k drl = (drl ++ [k], Returned).
Proof.
  intros Hp Hk. exists (assign_all kvs ∅).
  assert (assign_all kvs ∅ !! k = None) as Hnone
    by (by rewrite assign_all_untouched).
  split_and!; [by apply load_rows_assigns | done |].
  intros fuel drl. unfold Downstream.choose_downstream.
  destruct fuel; simpl; by rewrite Hnone.
Qed.

(** X6: when every row has at least two columns, as in a RAPID connectivity
    file, no key of the loaded mapping has an empty list, so the walk of
    choose_downstream never meets an empty list. *)
Theorem two_columns_give_first_entries (rows : list (list string)) (kvs : list (Z * list Z)) :
  parsed_rows rows = Some kvs →
  Forall (λ row, (2 ≤ length row)%nat) rows →
  ∃ m, load_connectivity rows = inr m
    ∧ (∀ k v, m !! k = Some v → v ≠ [])
    ∧ ∀ start, Downstream.first_entries_exist m start.
Proof.
  intros Hp Hcols. exists (assign_all kvs ∅).
  assert (∀ k v, assign_all kvs ∅ !! k = Some v → v ≠ []) as Hne.
  { intros k v Hkv. apply assign_all_lookup_in in Hkv as [Hkv | Hin]; [done |].
    apply parsed_rows_inv in Hp.
    apply list_elem_of_lookup in Hin as [i Hi].
    destruct (Forall2_lookup_r _ _ _ _ _ Hp Hi) as (row & Hrow & Hparse).
    pose proof (Forall_lookup_1 _ _ _ _ Hcols Hrow) as Hlen. simpl in Hlen.
    unfold parse_row in Hparse.
    destruct (ints_of (tail row)) as [e|data] eqn:Hdata; [done |].
    destruct row as [|first cols]; [done |].
    destruct (py_int (remove_spaces first)); [| done].
    injection Hparse as <- <-. apply ints_of_length in Hdata.
    simpl in *. intros ->. simpl in Hdata. lia. }
  split_and!; [by apply load_rows_assigns | done |].
  intros start n r _ Hr. by apply (Hne r []).
Qed.

End WithParser.

Lemma load_stops_at_first_bad_row_witness :
  load_connectivity (ip := dec_parser) ([["1"; "2"]] ++ [] :: [["x"]]) = inl IndexError
  ∧ load_connectivity (ip := dec_parser) ([["1"; "2"]] ++ ["3"; "4.5"] :: [[]])
    = inl ValueError.
Proof.
  split.
  - destruct (load_stops_at_first_bad_row (ip := dec_parser)
                [["1"; "2"]] [(1, [2])] [] [["x"]] IndexError) as (Hrun & _);
      [reflexivity | reflexivity | exact Hrun].
  - destruct (load_stops_at_first_bad_row (ip := dec_parser)
                [["1"; "2"]] [(1, [2])] ["3"; "4.5"] [[]] ValueError) as (Hrun & _);
      [reflexivity | reflexivity | exact Hrun].
Defined.

Lemma unlisted_id_is_a_sink_witness :
  ∃ m, load_connectivity (ip := dec_parser) [["1"; "2"; "0"]; ["2"; "0"]] = inr m
    ∧ m !! 0 = None
    ∧ ∀ fuel drl, Downstream.choose_downstream fuel m 0 drl = (drl ++ [0], Returned).
Proof.
  apply (unlisted_id_is_a_sink (ip := dec_parser) _ [(1, [2; 0]); (2, [0])]).
  - reflexivity.
  - apply (bool_decide_unpack _). by vm_compute.
Defined.

Lemma two_columns_give_first_entries_witness :
  ∃ m, load_connectivity (ip := dec_parser) [["1"; "2"; "0"]; ["2"; "0"]] = inr m
    ∧ (∀ k v, m !! k = Some v → v ≠ [])
    ∧ ∀ start, Downstream.first_entries_exist m start.
Proof.
  apply (two_columns_give_first_entries (ip := dec_parser) _ [(1, [2; 0]); (2, [0])]).
  - reflexivity.
  - repeat constructor; simpl; lia.
Defined.

End LoaderMore.

Module ViewerMore.
Import Viewer ViewerFacts.

Section Lookups.
Context {F : Type} {pf : PyFloat F} {lib : SciLib F}.

Lemma index_of_first x (l : list Z) : ∀ k,
  index_of x l = Some k → l !! k = Some x ∧ ∀ j, (j < k)%nat → l !! j ≠ Some x.
Proof.
  induction l as [|y l IH]; intros k Hk; simpl in Hk; [done |].
  case_bool_decide as Hy.
  - injection Hk as <-. subst y. split; [done | intros j Hj; lia].
  - destruct (index_of x l) as [k'|]; [| done]. injection Hk as <-.
    destruct (IH k' eq_refl) as [Hat Hbefore]. split; [done |].
    intros [|j] Hj; simpl; [congruence | apply Hbefore; lia].
Qed.

Lemma index_of_None x (l : list Z) : index_of x l = None ↔ x ∉ l.
Proof.
  induction l as [|y l IH]; simpl; [split; [intros _; apply not_elem_of_nil | done] |].
  rewrite not_elem_of_cons. case_bool_decide as Hy.
  - split; [done | intros [Hne _]; congruence].
  - destruct (index_of x l) as [k|]; simpl.
    + split; [done |]. intros [_ Hnot]. by apply IH in Hnot.
    + split; [| done]. intros _. split; [congruence | by apply IH].
Qed.

(** X7: the column looked up for each waypoint is the first position of its
    id among the dataset's ids, and the lookup raises ValueError as soon as
    one waypoint id is not among them. *)
Theorem indices_of_spec (e : env (F := F)) (rivids : list Z) :
  (Forall (λ r, r ∈ Qout_data_ids e) rivids →
     ∃ ss, indices_of e rivids = inr ss
       ∧ Forall2 (λ r s, Qout_data_ids e !! s = Some r
                         ∧ ∀ j, (j < s)%nat → Qout_data_ids e !! j ≠ Some r) rivids ss)
  ∧ (Exists (λ r, r ∉ Qout_data_ids e) rivids → indices_of e rivids = inl ValueError).
Proof.
  split.
  - induction 1 as [|r rest Hr Hrest (ss & Hss & Hall)]; simpl; [by exists [] |].
    destruct (index_of r (Qout_data_ids e)) as [s|] eqn:Hs.
    + rewrite Hss. exists (s :: ss). split; [done |]. constructor; [| done].
      by apply index_of_first.
    + by apply index_of_None in Hs.
  - induction rivids as [|r rest IH]; intros Hex; [by apply Exists_nil in Hex |].
    simpl. destruct (index_of r (Qout_data_ids e)) as [s|] eqn:Hs; [| done].
    apply Exists_cons in Hex as [Hr | Hrest].
    + apply index_of_None in Hr. congruence.
    + by rewrite (IH Hrest).
Qed.

(** X8: the series of a column has one value per time step, the value of
    that column in each row; reading it raises IndexError exactly when some row
    is too short for the column. *)
Theorem column_of_spec (rows : list (list F)) (s : nat) :
  (Forall (λ row, (s < length row)%nat) rows →
     ∃ col, column_of rows s = inr col
       ∧ length col = length rows
       ∧ ∀ t row, rows !! t = Some row → col !! t = row !! s)
  ∧ (Exists (λ row, (length row ≤ s)%nat) rows → column_of rows s = inl IndexError).
Proof.
  split.
  - induction 1 as [|row rest Hrow Hrest (col & Hcol & Hlen & Hat)]; simpl.
    + exists []. by split_and!.
    + destruct (lookup_lt_is_Some_2 row s Hrow) as [v Hv]. rewrite Hv, Hcol.
      exists (v :: col). split_and!; [done | simpl; by rewrite Hlen |].
      intros [|t] row' Ht; simpl in *; [by injection Ht as <- | by apply Hat].
  - induction rows as [|row rest IH]; intros Hex; [by apply Exists_nil in Hex |].
    simpl. destruct (row !! s) as [v|] eqn:Hv; [| done].
    apply Exists_cons in Hex as [Hrow | Hrest].
    + apply lookup_lt_Some in Hv. lia.
    + by rewrite (IH Hrest).
Qed.

Lemma find_point_scan (xs ys : list F) (ox oy : F) n : ∀ i r,
  (i + n = length xs)%nat →
  find_point n xs ys ox oy i = inr r →
  (i ≤ r ≤ length xs)%nat
  ∧ (∀ j x y, (i ≤ j < r)%nat → xs !! j = Some x → ys !! j = Some y →
       f_eq x ox && f_eq y oy = false)
  ∧ ((r < length xs)%nat →
       ∃ x y, xs !! r = Some x ∧ ys !! r = Some y
              ∧ f_eq x ox = true ∧ f_eq y oy = true).
Proof.
  induction n as [|n IH]; intros i r Hlen Hrun; simpl in Hrun.
  - injection Hrun as <-. split; [lia |]. split; intros; lia.
  - destruct (xs !! i) as [x|] eqn:Hx; [| done].
    assert (∀ r', find_point n xs ys ox oy (S i) = inr r' →
              (∀ y, ys !! i = Some y → f_eq x ox && f_eq y oy = false) →
              (i ≤ r' ≤ length xs)%nat
              ∧ (∀ j x0 y, (i ≤ j < r')%nat → xs !! j = Some x0 → ys !! j = Some y →
                   f_eq x0 ox && f_eq y oy = false)
              ∧ ((r' < length xs)%nat →
                   ∃ x0 y, xs !! r' = Some x0 ∧ ys !! r' = Some y
                           ∧ f_eq x0 ox = true ∧ f_eq y oy = true)) as Hnext.
    { intros r' Hr' Hhere. destruct (IH (S i) r') as (Hrange & Hbefore & Hat); [lia | done |].
      split; [lia |]. split; [| done].
      intros j x0 y Hj Hx0 Hy. destruct (decide (j = i)) as [-> | Hne].
      - rewrite Hx in Hx0. injection Hx0 as <-. by apply Hhere.
      - apply (Hbefore j); [lia | done | done]. }
    destruct (f_eq x ox) eqn:Hxo.
    + destruct (ys !! i) as [y|] eqn:Hy; [| done].
      destruct (f_eq y oy) eqn:Hyo.
      * injection Hrun as <-. split; [lia |]. split; [intros; lia |].
        intros _. by exists x, y.
      * apply Hnext; [done |]. intros y' Hy'. injection Hy' as <-. by rewrite Hyo.
    + apply Hnext; [done |]. intros y' _. done.
Qed.

(** X9: the scan of on_pick stops at the first data point whose two
    coordinates both compare equal to the picked offsets, and ends at the
    number of points when there is none. *)
Theorem find_point_first_match (xs ys : list F) (ox oy : F) (r : nat) :
  find_point (length xs) xs ys ox oy O = inr r →
  (r ≤ length xs)%nat
  ∧ (∀ j x y, (j < r)%nat → xs !! j = Some x → ys !! j = Some y →
       f_eq x ox && f_eq y oy = false)
  ∧ ((r < length xs)%nat →
       ∃ x y, xs !! r = Some x ∧ ys !! r = Some y
              ∧ f_eq x ox = true ∧ f_eq y oy = true).
Proof.
  intros Hrun. destruct (find_point_scan xs ys ox oy (length xs) O r) as (Hr & Hb & Ha);
    [lia | done |].
  split; [lia |]. split; [| done]. intros j x y Hj. apply Hb. lia.
Qed.

Lemma max_from_elem (l : list F) : ∀ best, max_from l best ∈ best :: l.
Proof.
  induction l as [|x l IH]; intros best; simpl; [by left |].
  specialize (IH (if f_gt x best then x else best)).
  apply elem_of_cons in IH as [-> | Hin].
  - destruct (f_gt x best); [right; by left | by left].
  - by right; right.
Qed.

Lemma index_f_found (m : F) (l : list F) :
  m ∈ l → f_eq m m = true → ∃ k, index_f m l = Some k ∧ (k < length l)%nat.
Proof.
  intros Hin Hrefl. induction l as [|x l IH]; [by apply elem_of_nil in Hin |].
  simpl. destruct (f_eq x m) eqn:Hx; [exists O; split; [done | simpl; lia] |].
  apply elem_of_cons in Hin as [-> | Hin]; [congruence |].
  destruct (IH Hin) as (k & -> & Hk). exists (S k). split; [done | simpl; lia].
Qed.

(** X10: when both series can be read and their cross-correlation is not
    empty and holds no value that differs from itself (no NaN), the lag is
    defined and is a position of the cross-correlation. *)
Theorem lag_defined (e : env (F := F)) (first_s s : nat) (xs ys : list F) :
  column e first_s = inr xs →
  column e s = inr ys →
  ccf xs ys ≠ [] →
  Forall (λ v, f_eq v v = true) (ccf xs ys) →
  ∃ k, lag e first_s s = inr k ∧ 0 ≤ k < Z.of_nat (length (ccf xs ys)).
Proof.
  intros Hx Hy Hne Hrefl. unfold lag. rewrite Hx, Hy.
  destruct (ccf xs ys) as [|c corr] eqn:Hc; [done |]. simpl py_max.
  pose proof (max_from_elem corr c) as Hin.
  destruct (index_f_found _ _ Hin) as (k & -> & Hk).
  { rewrite Forall_forall in Hrefl. by apply Hrefl. }
  exists (Z.of_nat k). split; [done | lia].
Qed.

End Lookups.

Section Waypoints.
Context {F : Type} {pf : PyFloat F}.
Variable e : env (F := F).

Lemma rivids_loop_sublist num_rivids dist todo : ∀ rivids dists net rivids' dists',
  rivids_loop e num_rivids dist todo rivids dists net = inr (rivids', dists') →
  ∃ sub, rivids' = rivids ++ sub ∧ sub `sublist_of` todo
         ∧ Forall (λ r, r ∈ shp_comids e) sub
         ∧ (num_rivids ≤ Z.of_nat (length rivids) → sub = []).
Proof.
  induction todo as [|rivid todo IH]; intros rivids dists net rivids' dists' Hrun;
    simpl in Hrun.
  - injection Hrun as <- <-. exists []. by rewrite app_nil_r.
  - destruct (num_rivids <=? Z.of_nat (length rivids)) eqn:Hfull.
    { injection Hrun as <- <-. exists []. rewrite app_nil_r. split_and!; try done.
      apply sublist_nil_l. }
    apply Z.leb_gt in Hfull.
    case_bool_decide as Hin; simpl in Hrun.
    2: { injection Hrun as <- <-. exists []. rewrite app_nil_r. split_and!; try done.
         apply sublist_nil_l. }
    destruct (index_of rivid (shp_comids e)) as [k|]; [| done].
    destruct (river_lengths e !! k) as [len|]; [| done].
    destruct (f_gt _ _).
    + destruct (IH _ _ _ _ _ Hrun) as (sub & -> & Hsub & Hall & _).
      exists (rivid :: sub). rewrite <- app_assoc. split_and!; try done.
      * by apply sublist_skip.
      * by constructor.
      * intros. lia.
    + destruct (IH _ _ _ _ _ Hrun) as (sub & -> & Hsub & Hall & _).
      exists sub. split_and!; try done; [by apply sublist_cons | intros; lia].
Qed.

(** X11: the waypoints that get_rivids_along_downstream returns are ids of
    the downstream list, in the order of the list, and each is an id of the
    shapefile; with num_rivids <= 0, or when the first id of the list is not in
    the shapefile, there are none. *)
Theorem waypoints_come_from_the_list (downstream : list Z) (num_rivids : Z) (dist : F) :
  ∃ rivids dists,
    get_rivids_along_downstream e downstream num_rivids dist = inr (rivids, dists)
    ∧ rivids `sublist_of` downstream
    ∧ Forall (λ r, r ∈ shp_comids e) rivids
    ∧ (num_rivids ≤ 0 → rivids = [])
    ∧ (∀ x tl, downstream = x :: tl → x ∉ shp_comids e → rivids = []).
Proof.
  destruct (get_rivids_total e downstream num_rivids dist) as (rivids & dists & Hrun).
  exists rivids, dists. split; [done |].
  pose proof Hrun as Hrun'. unfold get_rivids_along_downstream in Hrun'.
  destruct (rivids_loop_sublist _ _ _ _ _ _ _ _ Hrun') as (sub & -> & Hsub & Hall & Hfull).
  simpl in *. split_and!; try done.
  intros x tl -> Hx. simpl in Hrun'.
  destruct (num_rivids <=? Z.of_nat 0);
    [| rewrite bool_decide_eq_false_2 in Hrun' by done];
    simpl in Hrun'; by injection Hrun' as <- _.
Qed.

Lemma py_sum_zeros (l : list (num (F := F))) :
  Forall (λ a, a = NInt 0) l → py_sum l = NInt 0.
Proof.
  unfold py_sum. induction 1 as [|a l -> _ IH]; simpl; [done | exact IH].
Qed.

(** X12: the total distance depends only on which ids are in the downstream
    list: repeating ids or reordering them, as a second pick through the same
    reaches does, leaves it unchanged. *)
Theorem total_distance_by_membership (st1 st2 : state (F := F)) :
  (∀ x, x ∈ downstream_rivers_list st1 ↔ x ∈ downstream_rivers_list st2) →
  get_total_distance e st1 = get_total_distance e st2.
Proof.
  intros Hsame. unfold get_total_distance.
  assert (bool_decide (downstream_rivers_list st1 = [])
          = bool_decide (downstream_rivers_list st2 = [])) as ->.
  { apply bool_decide_ext.
    destruct (downstream_rivers_list st1) as [|a l1], (downstream_rivers_list st2) as [|b l2];
      try done.
    - exfalso. eapply not_elem_of_nil, Hsame. by left.
    - exfalso. eapply not_elem_of_nil, Hsame. by left. }
  case_bool_decide; [done |]. f_equal.
  apply list_fmap_ext. intros i p _. simpl.
  by rewrite (bool_decide_ext _ _ (Hsame p.2)).
Qed.

(** X13: the total distance is the int 0 when the list is empty, and also
    when no feature of the shapefile has its id in the list. *)
Theorem total_distance_zero (st : state (F := F)) :
  (downstream_rivers_list st = [] → get_total_distance e st = NInt 0)
  ∧ (Forall (λ c, c ∉ downstream_rivers_list st) (shp_comids e) →
       get_total_distance e st = NInt 0).
Proof.
  unfold get_total_distance. split.
  - intros ->. done.
  - intros Hnone. case_bool_decide; [done |]. apply py_sum_zeros.
    apply Forall_fmap, Forall_forall. intros [rl c] Hin. simpl.
    rewrite bool_decide_eq_false_2; [done |].
    rewrite Forall_forall in Hnone. apply Hnone.
    apply elem_of_zip_r in Hin. done.
Qed.

End Waypoints.

Section CallbacksMore.
Context {F : Type} {ip : IntParser} {pf : PyFloat F} {lib : SciLib F}.
#[local] Existing Instances M_ret M_bind.

Lemma find_point_no_match (xs ys : list F) (ox oy : F) n : ∀ i,
  (i + n = length xs)%nat →
  Forall2 (λ x y, f_eq x ox && f_eq y oy = false) xs ys →
  find_point n xs ys ox oy i = inr (length xs).
Proof.
  induction n as [|n IH]; intros i Hlen Hno; simpl.
  - f_equal. lia.
  - destruct (lookup_lt_is_Some_2 xs i) as [x Hx]; [lia |].
    destruct (Forall2_lookup_l _ _ _ _ _ Hno Hx) as (y & Hy & Hxy).
    rewrite Hx, Hy. destruct (f_eq x ox); simpl in Hxy.
    + rewrite Hxy. apply IH; [lia | done].
    + apply IH; [lia | done].
Qed.

(** X14: when no data point has both coordinates equal to the picked
    offsets, and there are no more ids than points, on_pick does one of two
    things.  If offsets are remembered, not both zero, and the picked ones are
    close to them, the pick is taken for a repeat: on_pick returns with no
    change and no output.  Otherwise it raises IndexError at
    [Qout_data_ids[i]]: by then it has overwritten [offsets], and it has
    neither touched the downstream list nor drawn or printed anything. *)
Theorem pick_without_match_raises
    (fuel : nat) (e : env (F := F)) (st : state) (p : F * F) :
  Forall2 (λ x y, f_eq x p.1 && f_eq y p.2 = false) (x_vals_array e) (y_vals_array e) →
  (length (Qout_data_ids e) ≤ length (x_vals_array e))%nat →
  on_pick fuel e p st
  = if any_nonzero (offsets st) && all_close p (offsets st)
    then (Ret tt, st, [])
    else (Raise IndexError, set_offsets (Some p) st, []).
Proof.
  intros Hno Hids.
  unfold on_pick, mbind, M_bind, modify, get, lift.
  destruct (any_nonzero (offsets st) && all_close p (offsets st)); [done |].
  cbn -[find_point]. rewrite (find_point_no_match _ _ _ _ _ O) by (done || lia).
  cbn. by rewrite (lookup_ge_None_2 _ _ Hids).
Qed.

(** The run of on_pick when the point is found and the walk returns. *)
Lemma on_pick_run (fuel : nat) (e : env (F := F)) (st : state) (p : F * F)
    (i : nat) (id : Z) (path : list Z) :
  any_nonzero (offsets st) && all_close p (offsets st) = false →
  find_point (length (x_vals_array e)) (x_vals_array e) (y_vals_array e) p.1 p.2 O = inr i →
  Qout_data_ids e !! i = Some id →
  Downstream.choose_downstream fuel (connectivity e) id [] = (path, Returned) →
  ∃ rivids,
    on_pick fuel e p st
    = (Ret tt,
       set_windows (next_fignum st) (fig_prop st) (fig_discharge st) (fig_peak_dur st)
         (figures st ++ [(next_fignum st, "Control Room")])
         (set_downstream_rivers_list (downstream_rivers_list st ++ path)
            (set_offsets (Some p) st)),
       [Print [VStr "Showing downstream for"; VInt id];
        DrawMap (downstream_rivers_list st ++ path) rivids;
        Print [VStr "Took"; VSeconds; VStr "seconds to select"];
        NewFigure (next_fignum st) "Control Room";
        DrawIdle 1; DrawIdle (next_fignum st);
        Print [VStr "Took"; VSeconds; VStr "seconds to select and draw"]]).
Proof.
  intros Hguard Hfind Hid Hpath.
  destruct (draw_map_runs e
              (set_downstream_rivers_list (downstream_rivers_list st ++ path)
                 (set_offsets (Some p) st))) as [rivids Hdraw].
  exists rivids.
  unfold on_pick, create_config_window, new_figure, redraw_canvases, choose_downstream,
    mbind, M_bind, modify, get, emit, lift. rewrite Hguard.
  cbn -[find_point draw_map Downstream.choose_downstream]. rewrite Hfind.
  cbn -[draw_map Downstream.choose_downstream]. rewrite Hid.
  cbn -[draw_map Downstream.choose_downstream].
  rewrite DownstreamFacts.choose_downstream_accumulates, Hpath.
  cbn -[draw_map]. rewrite Hdraw. reflexivity.
Qed.


(** X16: reset empties the downstream list and forgets the offsets, leaves
    the settings as they were and keeps only figures numbered 1; the next pick
    is then never taken for a repeat, and the list after it is exactly the
    path of the picked reach. *)
Theorem reset_then_pick (fuel : nat) (e : env (F := F)) (st : state) (p : F * F)
    (i : nat) (id : Z) (path : list Z) :
  find_point (length (x_vals_array e)) (x_vals_array e) (y_vals_array e) p.1 p.2 O = inr i →
  Qout_data_ids e !! i = Some id →
  Downstream.choose_downstream fuel (connectivity e) id [] = (path, Returned) →
  result (reset st) = Ret tt
  ∧ downstream_rivers_list (final_state (reset st)) = []
  ∧ offsets (final_state (reset st)) = None
  ∧ num_reaches (final_state (reset st)) = num_reaches st
  ∧ reach_dist (final_state (reset st)) = reach_dist st
  ∧ threshold_level (final_state (reset st)) = threshold_level st
  ∧ Forall (λ f, f.1 = 1%nat) (figures (final_state (reset st)))
  ∧ result (on_pick fuel e p (final_state (reset st))) = Ret tt
  ∧ downstream_rivers_list (final_state (on_pick fuel e p (final_state (reset st)))) = path.
Proof.
  intros Hfind Hid Hpath.
  assert (any_nonzero (offsets (final_state (reset st)))
          && all_close p (offsets (final_state (reset st))) = false) as Hguard by done.
  destruct (on_pick_run fuel e (final_state (reset st)) p i id path Hguard Hfind Hid Hpath)
    as [rivids ->].
  split_and!; try done.
  apply Forall_forall. intros f Hf. cbn in Hf. by apply list_elem_of_filter in Hf as [? _].
Qed.

(** *** A plot window that exists blocks its button *)

Lemma show_propagation_opens (e : env (F := F)) (st : state) :
  downstream_rivers_list st ≠ [] →
  "River Propagation Time" ∉ get_figlabels st →
  figures (final_state (show_propagation e st))
  = figures st ++ [(next_fignum st, "River Propagation Time")].
Proof.
  intros Hsel Hfig.
  destruct (get_rivids_total e (downstream_rivers_list st) (num_reaches st) (reach_dist st))
    as (rivids & dists & Hriv).
  unfold show_propagation, update_idle, new_figure, run_loop,
    mbind, M_bind, modify, get, emit, emit_all, lift.
  cbn -[get_rivids_along_downstream indices_of propagation_plot].
  rewrite !bool_decide_eq_false_2 by done. rewrite Hriv.
  cbn -[indices_of propagation_plot].
  destruct (indices_of e rivids) as [x|ss]; [done |].
  cbn -[propagation_plot].
  by destruct (propagation_plot e ss rivids dists) as [[x|[]] out].
Qed.

Lemma show_event_duration_opens (e : env (F := F)) (st : state) :
  downstream_rivers_list st ≠ [] →
  "Peak Duration" ∉ get_figlabels st →
  figures (final_state (show_event_duration e st))
  = figures st ++ [(next_fignum st, "Peak Duration")].
Proof.
  intros Hsel Hfig.
  destruct (get_rivids_total e (downstream_rivers_list st) (num_reaches st) (reach_dist st))
    as (rivids & dists & Hriv).
  unfold show_event_duration, update_idle, new_figure, run_loop,
    mbind, M_bind, modify, get, emit, emit_all, lift.
  cbn -[get_rivids_along_downstream indices_of event_duration_loop].
  rewrite bool_decide_eq_false_2 by done. rewrite Hriv.
  cbn -[indices_of event_duration_loop].
  rewrite bool_decide_eq_false_2 by done.
  cbn -[indices_of event_duration_loop].
  destruct (indices_of e rivids) as [x|ss]; [done |].
  cbn -[event_duration_loop].
  by destruct (event_duration_loop e st (zip ss rivids)) as [[x|[]] out].
Qed.

Lemma show_discharge_over_time_opens (e : env (F := F)) (st : state) :
  downstream_rivers_list st ≠ [] →
  "River Discharges Over Time" ∉ get_figlabels st →
  figures (final_state (show_discharge_over_time e st))
  = figures st ++ [(next_fignum st, "River Discharges Over Time")].
Proof.
  intros Hsel Hfig.
  destruct (get_rivids_total e (downstream_rivers_list st) (num_reaches st) (reach_dist st))
    as (rivids & dists & Hriv).
  unfold show_discharge_over_time, new_figure, run_loop,
    mbind, M_bind, modify, get, emit, emit_all, lift, raise.
  cbn -[get_rivids_along_downstream indices_of discharge_loop].
  rewrite !bool_decide_eq_false_2 by done. rewrite Hriv.
  cbn -[indices_of discharge_loop].
  case_bool_decide; [done |].
  cbn -[indices_of discharge_loop].
  destruct (indices_of e rivids) as [x|ss]; [done |].
  cbn -[discharge_loop].
  by destruct (discharge_loop e st _ _) as [[x|[]] out].
Qed.

(** X17: once a plot button has been clicked with a selection, its figure
    is in the registry whether or not the drawing got through, and clicking
    the same button again draws nothing and changes nothing (the first two
    only ask the control window to redraw). *)
Theorem plot_window_blocks_second_click (e : env (F := F)) (st : state) :
  downstream_rivers_list st ≠ [] →
  ("River Propagation Time" ∉ get_figlabels st →
     show_propagation e (final_state (show_propagation e st))
     = (Ret tt, final_state (show_propagation e st),
        [DrawIdle (fig_config (final_state (show_propagation e st)))]))
  ∧ ("Peak Duration" ∉ get_figlabels st →
       show_event_duration e (final_state (show_event_duration e st))
       = (Ret tt, final_state (show_event_duration e st),
          [DrawIdle (fig_config (final_state (show_event_duration e st)))]))
  ∧ ("River Discharges Over Time" ∉ get_figlabels st →
       show_discharge_over_time e (final_state (show_discharge_over_time e st))
       = (Ret tt, final_state (show_discharge_over_time e st), [])).
Proof.
  intros Hsel. split_and!; intros Hfig.
  - pose proof (show_propagation_opens e st Hsel Hfig) as Hopen.
    generalize dependent (final_state (show_propagation e st)). intros st' Hopen.
    unfold show_propagation, update_idle, mbind, M_bind, get, emit. cbn.
    rewrite bool_decide_eq_true_2; [done |].
    unfold get_figlabels. rewrite Hopen, fmap_app. apply elem_of_app. right. by left.
  - pose proof (show_event_duration_opens e st Hsel Hfig) as Hopen.
    generalize dependent (final_state (show_event_duration e st)). intros st' Hopen.
    unfold show_event_duration, update_idle, mbind, M_bind, get, emit. cbn.
    rewrite bool_decide_eq_true_2; [done |].
    unfold get_figlabels. rewrite Hopen, fmap_app. apply elem_of_app. right. by left.
  - pose proof (show_discharge_over_time_opens e st Hsel Hfig) as Hopen.
    generalize dependent (final_state (show_discharge_over_time e st)). intros st' Hopen.
    unfold show_discharge_over_time, mbind, M_bind, get. cbn.
    rewrite bool_decide_eq_true_2; [done |].
    unfold get_figlabels. rewrite Hopen, fmap_app. apply elem_of_app. right. by left.
Qed.

(** *** Settings that stay in range *)

Lemma invariant_kept_refl (P : state (F := F) → Prop) st : invariant_kept P st st.
Proof. by intros ?. Qed.

Lemma invariant_kept_trans (P : state (F := F) → Prop) a b c :
  invariant_kept P a b → invariant_kept P b c → invariant_kept P a c.
Proof. unfold invariant_kept. auto. Qed.

Lemma choose_downstream_keeps (P : state (F := F) → Prop) fuel (e : env (F := F)) rivid :
  (∀ l st, P st → P (set_downstream_rivers_list l st)) →
  keeps (invariant_kept P) (choose_downstream fuel e rivid).
Proof.
  intros Hset st HP. unfold choose_downstream, final_state.
  destruct (Downstream.choose_downstream _ _ _ _) as [l [| x |]]; by apply Hset.
Qed.

Ltac frame_step Hrefl Htrans :=
  match goal with
  | |- keeps _ (mret _) => apply (keeps_ret _ Hrefl)
  | |- keeps _ get => apply (keeps_get _ Hrefl)
  | |- keeps _ (emit _) => apply (keeps_emit _ Hrefl)
  | |- keeps _ (emit_all _) => apply (keeps_emit_all _ Hrefl)
  | |- keeps _ (raise _) => apply (keeps_raise _ Hrefl)
  | |- keeps _ (lift _) => apply (keeps_lift _ Hrefl)
  | |- keeps _ (modify _) => apply keeps_modify; intros ?
  | |- keeps _ (match ?x with _ => _ end) => destruct x
  | |- keeps _ (mbind _ _) => apply (keeps_bind _ Htrans); [| intros ?]
  end.

Ltac keeps_all P Hchoose :=
  unfold handle, on_pick, set_threshold_level, update_num_reaches,
    update_reach_dist, show_discharge_over_time, show_propagation, show_event_duration,
    reset, save_all, close_all, draw_map, create_config_window, redraw_canvases,
    new_figure, run_loop, update_idle;
  repeat first
    [ apply Hchoose
    | frame_step (invariant_kept_refl P) (invariant_kept_trans P) ].

Lemma update_num_reaches_nonneg (e : env (F := F)) text st :
  0 ≤ num_reaches (final_state (update_num_reaches e text st)).
Proof.
  unfold update_num_reaches, redraw_canvases, update_idle, mbind, M_bind, modify, get, emit.
  cbn -[draw_map Z.ltb].
  destruct (Z.ltb_spec (match py_int text with Some n => n | None => 0 end) 0) as [Hneg|Hpos].
  - destruct (draw_map_runs e (set_num_reaches 0 (set_num_reaches_str text st)))
      as [rivids Hdraw].
    cbn -[draw_map]. by rewrite Hdraw.
  - case_bool_decide as Hsame; cbn -[draw_map]; [by rewrite Hsame |].
    destruct (draw_map_runs e
                (set_num_reaches (match py_int text with Some n => n | None => 0 end)
                   (set_num_reaches_str text st))) as [rivids Hdraw].
    by rewrite Hdraw.
Qed.

(** X18: the number of reaches is never negative: it starts at int("5"),
    every submission leaves it at 0 or above (a negative entry and a text that
    is no integer both give 0), and no other callback assigns it. *)
Theorem num_reaches_never_negative (e : env (F := F)) (st : state) (n : Z) :
  py_int "5" = Some n → 0 ≤ n →
  reachable e st →
  0 ≤ num_reaches st
  ∧ (∀ text, 0 ≤ num_reaches (final_state (update_num_reaches e text st)))
  ∧ (∀ text z, py_int text = Some z → z < 0 →
       num_reaches (final_state (update_num_reaches e text st)) = 0).
Proof.
  intros Hfive Hn Hreach. split_and!.
  - induction Hreach as [st Hinit | st fuel ev Hreach IH].
    + unfold initial_state in Hinit. rewrite Hfive in Hinit.
      destruct (py_float "117"); [| done]. simpl in Hinit. by injection Hinit as <-.
    + destruct ev; try apply update_num_reaches_nonneg; revert IH;
        match goal with
        | |- _ → 0 ≤ num_reaches (final_state (?m st)) =>
            change (invariant_kept (λ s, 0 ≤ num_reaches s) st (final_state (m st)));
            generalize st; change (keeps (invariant_kept (λ s, 0 ≤ num_reaches s)) m)
        end;
        keeps_all (λ s : state (F := F), 0 ≤ num_reaches s)
          (choose_downstream_keeps (λ s : state (F := F), 0 ≤ num_reaches s));
        by (done || (intros ? ?; done) || (unfold invariant_kept; simpl; done)).
  - intros text. apply update_num_reaches_nonneg.
  - intros text z Hz Hneg.
    unfold update_num_reaches, redraw_canvases, update_idle, mbind, M_bind, modify, get, emit.
    rewrite Hz. cbn -[draw_map Z.ltb].
    destruct (Z.ltb_spec z 0) as [_|Hpos]; [| lia].
    destruct (draw_map_runs e (set_num_reaches 0 (set_num_reaches_str text st)))
      as [rivids Hdraw].
    cbn -[draw_map]. by rewrite Hdraw.
Qed.

Lemma update_reach_dist_ok (e : env (F := F)) text st (d : F) :
  distance_ok st ∧ default_reach_dist st = d →
  distance_ok (final_state (update_reach_dist e text st))
  ∧ default_reach_dist (final_state (update_reach_dist e text st)) = d.
Proof.
  intros [[Hdist Hdef] Hd].
  unfold update_reach_dist, redraw_canvases, update_idle, mbind, M_bind, modify, get, emit.
  cbn -[draw_map].
  generalize (match py_float text with Some x => x | None => default_reach_dist st end).
  intros temp.
  destruct (f_eq temp (f_of_int 0)) eqn:Hzero.
  - destruct (draw_map_runs e
                (set_reach_dist (default_reach_dist st) (set_reach_dist_str text st)))
      as [rivids Hdraw].
    cbn -[draw_map]. rewrite Hdraw. by cbn.
  - destruct (f_eq (reach_dist st) temp) eqn:Hsame; cbn -[draw_map]; [done |].
    destruct (draw_map_runs e (set_reach_dist temp (set_reach_dist_str text st)))
      as [rivids Hdraw].
    rewrite Hdraw. by cbn.
Qed.

(** X19: when float("117") does not compare equal to 0, the distance
    between reaches never compares equal to 0 in any state the program reaches,
    and the default distance stays float("117"): a submitted 0 is replaced by
    the default, and nothing else assigns either. *)
Theorem reach_dist_never_zero (e : env (F := F)) (st : state) (d : F) :
  py_float "117" = Some d →
  f_eq d (f_of_int 0) = false →
  reachable e st →
  f_eq (reach_dist st) (f_of_int 0) = false ∧ default_reach_dist st = d.
Proof.
  intros Hfloat Hd Hreach.
  assert (distance_ok st ∧ default_reach_dist st = d) as [[Hdist _] Hdef]; [| done].
  induction Hreach as [st Hinit | st fuel ev Hreach IH].
  - unfold initial_state in Hinit. rewrite Hfloat in Hinit.
    destruct (py_int "5"); [| done]. simpl in Hinit. by injection Hinit as <-.
  - destruct ev; try (by apply update_reach_dist_ok); revert IH;
      match goal with
      | |- _ → ?Q =>
          match Q with
          | context [final_state (?m st)] =>
              change (invariant_kept
                        (λ s, distance_ok s ∧ default_reach_dist s = d)
                        st (final_state (m st)));
              generalize st;
              change (keeps (invariant_kept
                               (λ s, distance_ok s ∧ default_reach_dist s = d)) m)
          end
      end;
      keeps_all (λ s : state (F := F), distance_ok s ∧ default_reach_dist s = d)
        (choose_downstream_keeps
           (λ s : state (F := F), distance_ok s ∧ default_reach_dist s = d));
      by (done || (intros ? ?; done) || (unfold invariant_kept; simpl; done)).
Qed.

Lemma reachable_threshold (e : env (F := F)) (st : state) :
  reachable e st → threshold_level st = "90".
Proof.
  induction 1 as [st Hinit | st fuel ev Hreach IH].
  - unfold initial_state in Hinit.
    destruct (py_int "5"); [| done]. destruct (py_float "117"); [| done].
    simpl in Hinit. by injection Hinit as <-.
  - by rewrite (handle_same_threshold fuel e ev st).
Qed.

(** X20: when float("90") lies between 0 and 100, set_threshold_level is
    checked against the stored level and never against the submitted text: it
    never prints either range error, it returns with the state as it was, and
    for any text other than "90" the line it prints names the level 90. *)
Theorem threshold_message_names_old_level (e : env (F := F)) (st : state) (q : F)
    (text : string) :
  reachable e st →
  py_float "90" = Some q →
  f_gt q (f_of_int 100) = false →
  f_lt q (f_of_int 0) = false →
  set_threshold_level text st
  = (Ret tt, st,
     if bool_decide ("90" = text) then [DrawIdle (fig_config st)]
     else [Print [VStr "Setting the river threshold level to 90 percentile."];
           DrawIdle (fig_config st)]).
Proof.
  intros Hreach Hq Hhigh Hlow. apply reachable_threshold in Hreach.
  unfold set_threshold_level, update_idle, mbind, M_bind, get, emit, lift.
  rewrite Hreach, Hq. cbn. rewrite Hhigh, Hlow. cbn.
  by case_bool_decide.
Qed.

End CallbacksMore.

(** *** The statements at work on the small network, with binary64 floats *)

Import Binary64.

Lemma lag_defined_witness :
  ∃ k, lag small_env 0 1 = inr k ∧ 0 ≤ k < 4.
Proof.
  destruct (lag_defined small_env 0 1
              [float_of_Z 0; float_of_Z 0; float_of_Z 1; float_of_Z 9]
              [float_of_Z 0; float_of_Z 9; float_of_Z 1; float_of_Z 0])
    as (k & Hk & Hrange).
  - by vm_compute.
  - by vm_compute.
  - by vm_compute.
  - vm_compute. repeat constructor.
  - exists k. split; [exact Hk |]. vm_compute in Hrange. exact Hrange.
Defined.

Lemma total_distance_by_membership_witness :
  get_total_distance small_env (set_downstream_rivers_list [1; 2; 3; 0] start_state)
  = get_total_distance small_env
      (set_downstream_rivers_list [1; 2; 3; 0; 2; 3; 0] start_state).
Proof.
  apply (total_distance_by_membership small_env
           (set_downstream_rivers_list [1; 2; 3; 0] start_state)
           (set_downstream_rivers_list [1; 2; 3; 0; 2; 3; 0] start_state)).
  intros x. cbn. set_solver.
Defined.

Lemma find_point_first_match_witness :
  (1 ≤ length (x_vals_array small_env))%nat
  ∧ (∀ j x y, (j < 1)%nat → x_vals_array small_env !! j = Some x →
       y_vals_array small_env !! j = Some y →
       f_eq x (float_of_Z 2) && f_eq y (float_of_Z 6) = false)
  ∧ ((1 < length (x_vals_array small_env))%nat →
       ∃ x y, x_vals_array small_env !! 1%nat = Some x
              ∧ y_vals_array small_env !! 1%nat = Some y
              ∧ f_eq x (float_of_Z 2) = true ∧ f_eq y (float_of_Z 6) = true).
Proof.
  apply (find_point_first_match (x_vals_array small_env) (y_vals_array small_env)
           (float_of_Z 2) (float_of_Z 6) 1).
  by vm_compute.
Defined.

Lemma pick_without_match_raises_witness :
  on_pick 10 small_env (float_of_Z 100, float_of_Z 100) start_state
  = (Raise IndexError,
     set_offsets (Some (float_of_Z 100, float_of_Z 100)) start_state, [])
  ∧ on_pick 10 small_env
      (PrimFloat.div (float_of_Z 10005) (float_of_Z 10000), float_of_Z 5) picked_state
    = (Ret tt, picked_state, []).
Proof.
  split.
  - rewrite (pick_without_match_raises 10 small_env start_state
               (float_of_Z 100, float_of_Z 100)).
    + reflexivity.
    + repeat constructor; by vm_compute.
    + simpl. lia.
  - rewrite (pick_without_match_raises 10 small_env picked_state
               (PrimFloat.div (float_of_Z 10005) (float_of_Z 10000), float_of_Z 5)).
    + by vm_compute.
    + repeat constructor; by vm_compute.
    + simpl. lia.
Defined.


Lemma reset_then_pick_witness :
  downstream_rivers_list (final_state (reset picked_state)) = []
  ∧ result (on_pick 10 small_env (float_of_Z 4, float_of_Z 8)
              (final_state (reset picked_state))) = Ret tt
  ∧ downstream_rivers_list
      (final_state (on_pick 10 small_env (float_of_Z 4, float_of_Z 8)
                      (final_state (reset picked_state))))
    = [7; 3; 0].
Proof.
  destruct (reset_then_pick 10 small_env picked_state (float_of_Z 4, float_of_Z 8)
              3%nat 7 [7; 3; 0]) as (_ & Hempty & _ & _ & _ & _ & _ & Hret & Hlist).
  - by vm_compute.
  - reflexivity.
  - by vm_compute.
  - split_and!; [exact Hempty | exact Hret | exact Hlist].
Defined.

Lemma plot_window_blocks_second_click_witness :
  show_propagation small_env (final_state (show_propagation small_env picked_state))
  = (Ret tt, final_state (show_propagation small_env picked_state),
     [DrawIdle (fig_config (final_state (show_propagation small_env picked_state)))])
  ∧ show_discharge_over_time small_env
      (final_state (show_discharge_over_time small_env picked_state))
    = (Ret tt, final_state (show_discharge_over_time small_env picked_state), []).
Proof.
  destruct (plot_window_blocks_second_click small_env picked_state)
    as (Hprop & _ & Hdis).
  - by vm_compute.
  - split.
    + apply Hprop. apply (bool_decide_unpack _). by vm_compute.
    + apply Hdis. apply (bool_decide_unpack _). by vm_compute.
Defined.

Lemma picked_state_reachable : reachable small_env picked_state.
Proof. unfold picked_state. apply reach_step, reach_step, reach_init. reflexivity. Qed.

Lemma num_reaches_never_negative_witness :
  0 ≤ num_reaches picked_state
  ∧ (∀ text, 0 ≤ num_reaches (final_state (update_num_reaches small_env text picked_state)))
  ∧ (∀ text z, py_int text = Some z → z < 0 →
       num_reaches (final_state (update_num_reaches small_env text picked_state)) = 0).
Proof.
  apply (num_reaches_never_negative small_env picked_state 5).
  - reflexivity.
  - lia.
  - exact picked_state_reachable.
Defined.

Lemma reach_dist_never_zero_witness :
  f_eq (reach_dist picked_state) (f_of_int 0) = false
  ∧ default_reach_dist picked_state = float_of_Z 117.
Proof.
  apply (reach_dist_never_zero small_env picked_state (float_of_Z 117)).
  - reflexivity.
  - by vm_compute.
  - exact picked_state_reachable.
Defined.

Lemma threshold_message_names_old_level_witness :
  set_threshold_level "150" picked_state
  = (Ret tt, picked_state,
     [Print [VStr "Setting the river threshold level to 90 percentile."];
      DrawIdle (fig_config picked_state)]).
Proof.
  apply (threshold_message_names_old_level small_env picked_state (float_of_Z 90) "150").
  - exact picked_state_reachable.
  - reflexivity.
  - by vm_compute.
  - by vm_compute.
Defined.

End ViewerMore.
